(** * Polidle: the game logic of [js/app.js], embedded and verified

    The script is one closure over a handful of mutable globals
    ([pool], [currentIndex], [score], ...) that event handlers update.
    The embedding threads those globals through every handler as one
    [State] record; the parts of the page the handlers write to (photo,
    reveal panel, buttons, score board) are a [View] inside it, and the
    one [localStorage] entry is a field of it too.

    Conventions.
    - A JavaScript string is a Rocq [string]; each [ascii] stands for the
      UTF-16 code unit of the same number.
    - An optional record field ([groupe_sigle], [groupe_nom], [photo]) is an
      [option string]: [None] is an absent field ([undefined]).
    - Counters are [Z]; JavaScript numbers are exact on the integers the
      game can reach.  [bestStreak] comes out of [parseInt] and is a
      [jsnum], which adds [NaN].
    - [Math.random()] is a stream [random : nat -> Q] of numbers in
      [0, 1); the state counts the draws made so far.
    - [PARTY_COLORS] is a finite map on the keys of the object literal;
      reading [PARTY_COLORS[sigle]] goes on to [Object_prototype], the
      members every object inherits.
    - Handlers run to completion one after the other; a handler that
      throws keeps the assignments it has made ([Outcome]). *)

From Stdlib Require Import ZArith QArith Qround String Ascii DecimalString
  DecimalPos OrderedTypeEx.
From stdpp Require Import gmap strings list sorting.

Local Open Scope string_scope.
Local Open Scope Z_scope.

(** ** JavaScript values *)

Inductive jsnum : Type :=
| NaN
| Num (z : Z).

(** Truthiness of an optional string: [undefined] and the empty string are
    falsy. *)
Definition truthy (v : option string) : bool :=
  match v with
  | Some EmptyString => false
  | Some _ => true
  | None => false
  end.

(** [String(n)] for an integer [n]. *)
Definition String_of_Z (z : Z) : string :=
  NilZero.string_of_int (Z.to_int z).

Definition charCode (c : ascii) : Z := Z.of_N (N_of_ascii c).

(** *** [parseInt(s, 10)] *)

(** White space that [parseInt] skips, among the code units below 256. *)
Definition is_white_space (c : ascii) : bool :=
  let n := charCode c in
  ((9 <=? n) && (n <=? 13)) || (n =? 32) || (n =? 160).

Fixpoint skip_white_space (s : string) : string :=
  match s with
  | String c rest => if is_white_space c then skip_white_space rest else s
  | EmptyString => s
  end.

Definition digit_of (c : ascii) : option Z :=
  let n := charCode c in
  if (48 <=? n) && (n <=? 57) then Some (n - 48) else None.

(** The longest prefix of decimal digits. *)
Fixpoint leading_digits (s : string) : list Z :=
  match s with
  | String c rest =>
      match digit_of c with
      | Some d => d :: leading_digits rest
      | None => []
      end
  | EmptyString => []
  end.

Definition digits_value (ds : list Z) : Z :=
  fold_left (fun acc d => 10 * acc + d) ds 0.

Definition parseInt (s : string) : jsnum :=
  let t := skip_white_space s in
  let '(sign, body) :=
    match t with
    | String "-" rest => (-1, rest)
    | String "+" rest => (1, rest)
    | _ => (1, t)
    end in
  match leading_digits body with
  | [] => NaN
  | ds => Num (sign * digits_value ds)
  end.

(** [a > b] on numbers: any comparison with [NaN] is false. *)
Definition js_gt (a : Z) (b : jsnum) : bool :=
  match b with
  | Num z => z <? a
  | NaN => false
  end.

(** ** Data model *)

Record Politician : Type := mkPolitician {
  nom_complet : string;
  type : string;
  groupe_sigle : option string;
  groupe_nom : option string;
  photo : option string
}.

Record PartyConfig : Type := mkParty {
  name : string;
  color : string
}.

#[global] Instance jsnum_eq_dec : EqDecision jsnum.
Proof. solve_decision. Defined.

#[global] Instance Politician_eq_dec : EqDecision Politician.
Proof. solve_decision. Defined.

#[global] Instance PartyConfig_eq_dec : EqDecision PartyConfig.
Proof. solve_decision. Defined.

(** A member an object inherits from [Object.prototype]: one of its
    methods, with the [name] property of that function, or, through the
    accessor [__proto__], [Object.prototype] itself. *)
Inductive Inherited : Type :=
| BuiltinFunction (fname : string)
| ObjectPrototype.

(** What [getPartyConfig] returns: an object with a [name] and a [color],
    or an inherited member, which has no [color] and at most a [name]. *)
Inductive PartyValue : Type :=
| Config (cfg : PartyConfig)
| Member (m : Inherited).

#[global] Instance Inherited_eq_dec : EqDecision Inherited.
Proof. solve_decision. Defined.

#[global] Instance PartyValue_eq_dec : EqDecision PartyValue.
Proof. solve_decision. Defined.

(** [cfg.name] and [cfg.color]; [None] is [undefined]. *)
Definition cfg_name (v : PartyValue) : option string :=
  match v with
  | Config cfg => Some (name cfg)
  | Member (BuiltinFunction fname) => Some fname
  | Member ObjectPrototype => None
  end.

Definition cfg_color (v : PartyValue) : option string :=
  match v with
  | Config cfg => Some (color cfg)
  | Member _ => None
  end.

(** A value as string concatenation renders it. *)
Definition js_str (v : option string) : string :=
  match v with
  | Some str => str
  | None => "undefined"
  end.

(** ** Party registry *)

(** The object literal [PARTY_COLORS], as a finite map on its own keys. *)
Definition PARTY_COLORS : gmap string PartyConfig :=
  list_to_map [
    (* Assemblée Nationale (17e législature) *)
    ("RN",      mkParty "Rassemblement National" "#0D378A");
    ("EPR",     mkParty "Ensemble pour la République" "#7B4FBE");
    ("LFI-NFP", mkParty "La France insoumise – NFP" "#CC2443");
    ("DR",      mkParty "Droite Républicaine" "#0077CC");
    ("Dem",     mkParty "Les Démocrates" "#FF8C00");
    ("HOR",     mkParty "Horizons & Indépendants" "#00B4D8");
    ("SOC",     mkParty "Socialistes et apparentés" "#FF6B81");
    ("GDR",     mkParty "Gauche Démocrate et Républicaine" "#BB0000");
    ("LIOT",    mkParty "Libertés, Indépendants, Outre-mer et Territoires" "#D4A017");
    ("EcoS",    mkParty "Écologiste et Social" "#00A86B");
    ("UDR",     mkParty "Union des droites pour la République" "#1B3A5C");
    ("NI",      mkParty "Non inscrit" "#808080");
    (* Sénat *)
    ("LR",      mkParty "Les Républicains" "#0066AA");
    ("SER",     mkParty "Socialiste, Écologiste et Républicain" "#E05080");
    ("UC",      mkParty "Union Centriste" "#00A0D2");
    ("RDPI",    mkParty "Rassemblement des démocrates, progressistes et indépendants" "#DAA520");
    ("CRCE-K",  mkParty "Communiste Républicain Citoyen Écologiste – Kanaky" "#C40000");
    ("RDSE",    mkParty "Rassemblement Démocratique et Social Européen" "#E6A817");
    ("GEST",    mkParty "Écologiste – Solidarité et Territoires" "#2ECC71");
    ("INDEP",   mkParty "Les Indépendants – République et Territoires" "#8B6914")
  ].

(** The members of [Object.prototype] in ECMAScript, by key; the page
    loads no script that adds to them. *)
Definition Object_prototype : gmap string Inherited :=
  list_to_map [
    ("constructor",          BuiltinFunction "Object");
    ("hasOwnProperty",       BuiltinFunction "hasOwnProperty");
    ("isPrototypeOf",        BuiltinFunction "isPrototypeOf");
    ("propertyIsEnumerable", BuiltinFunction "propertyIsEnumerable");
    ("toLocaleString",       BuiltinFunction "toLocaleString");
    ("toString",             BuiltinFunction "toString");
    ("valueOf",              BuiltinFunction "valueOf");
    ("__defineGetter__",     BuiltinFunction "__defineGetter__");
    ("__defineSetter__",     BuiltinFunction "__defineSetter__");
    ("__lookupGetter__",     BuiltinFunction "__lookupGetter__");
    ("__lookupSetter__",     BuiltinFunction "__lookupSetter__");
    ("__proto__",            ObjectPrototype)
  ].

(** [PARTY_COLORS[sigle]]: an own key first, then the prototype; [None] is
    [undefined].  Every value found is an object or a function, hence
    truthy. *)
Definition lookup_PARTY_COLORS (sigle : string) : option PartyValue :=
  match PARTY_COLORS !! sigle with
  | Some cfg => Some (Config cfg)
  | None => Member <$> Object_prototype !! sigle
  end.

(** *** [autoColor] *)

(** Conversion to a signed 32-bit integer, as the shift operator applies it
    to its operand and to its result. *)
Definition ToInt32 (z : Z) : Z := (z + 2 ^ 31) mod 2 ^ 32 - 2 ^ 31.

(** [hash << 5] *)
Definition shl5 (hash : Z) : Z := ToInt32 (Z.shiftl (ToInt32 hash) 5).

(** One turn of the loop: [hash = str.charCodeAt(i) + ((hash << 5) - hash)].
    Only the shift wraps; the subtraction and the sum are on numbers. *)
Definition hash_step (hash : Z) (c : ascii) : Z :=
  charCode c + (shl5 hash - hash).

Fixpoint hash_from (hash : Z) (str : string) : Z :=
  match str with
  | EmptyString => hash
  | String c rest => hash_from (hash_step hash c) rest
  end.

Definition hash_of (str : string) : Z := hash_from 0 str.

(** [Math.abs(hash % 360)]; [%] takes the sign of the dividend. *)
Definition hue_of (str : string) : Z := Z.abs (Z.rem (hash_of str) 360).

Definition autoColor (str : string) : string :=
  "hsl(" +:+ String_of_Z (hue_of str) +:+ ", 55%, 45%)".

(** *** [getPartyConfig] *)

(** [pool.find((p) => p.groupe_sigle === sigle)] *)
Definition find_by_sigle (pool : list Politician) (sigle : string)
  : option Politician :=
  List.find (fun p => bool_decide (groupe_sigle p = Some sigle)) pool.

(** [(found && found.groupe_nom) ? found.groupe_nom : sigle] *)
Definition fallback_name (found : option Politician) (sigle : string) : string :=
  match found with
  | Some p =>
      match groupe_nom p with
      | Some n => if truthy (Some n) then n else sigle
      | None => sigle
      end
  | None => sigle
  end.

Definition getPartyConfig (pool : list Politician) (sigle : string)
  : PartyValue :=
  match lookup_PARTY_COLORS sigle with
  | Some found => found
  | None =>
      Config {| name := fallback_name (find_by_sigle pool sigle) sigle;
                color := autoColor sigle |}
  end.

(** ** Choice list: [[...new Set(codes)].filter(Boolean).sort()] *)

(** Values of a [Set] built from an array, in insertion order: the first
    occurrence of each value is kept. *)
Fixpoint set_values_from (seen l : list (option string))
  : list (option string) :=
  match l with
  | [] => []
  | v :: rest =>
      if decide (v ∈ seen) then set_values_from seen rest
      else v :: set_values_from (v :: seen) rest
  end.

Definition Set_values (l : list (option string)) : list (option string) :=
  set_values_from [] l.

(** [.filter(Boolean)]: what remains is a list of non-empty strings. *)
Definition filter_Boolean (l : list (option string)) : list string :=
  omap (fun v => if truthy v then v else None) l.

(** The default comparison of [.sort()]: strings by code units. *)
Definition str_le (a b : string) : Prop := String.leb a b = true.

#[global] Instance str_le_dec : RelDecision str_le.
Proof. intros a b. unfold str_le. apply _. Defined.

Definition compute_parties (pool : list Politician) : list string :=
  merge_sort str_le (filter_Boolean (Set_values (map groupe_sigle pool))).

(** ** Page and session state *)

Inductive btn_class : Type := Plain | Correct | Wrong | Dimmed.

Record Button : Type := mkButton {
  b_sigle : string;
  b_cfg : PartyValue;
  b_class : btn_class;
  b_disabled : bool
}.

(** The reveal panel: icon, [revealName] and [revealGroup]. *)
Record Reveal : Type := mkReveal {
  r_correct : bool;
  r_name : string;
  r_group : string
}.

Record Board : Type := mkBoard {
  d_score : Z;
  d_total : Z;
  d_streak : Z;
  d_best : jsnum
}.

Record View : Type := mkView {
  shown : option Politician;   (* candidate whose photo is in [els.photo] *)
  badge : option string;       (* chamber badge, [None] when hidden *)
  reveal : option Reveal;      (* [None] when the panel is hidden *)
  nextBtn : bool;              (* next button visible *)
  buttons : list Button;
  board : option Board         (* [None] until the first score display *)
}.

Record State : Type := mkState {
  deputes : list Politician;
  senateurs : list Politician;
  pool : list Politician;
  currentIndex : nat;
  score : Z;
  total : Z;
  streak : Z;
  bestStreak : jsnum;
  mode : string;
  answered : bool;
  parties : list string;
  storage : option string;     (* localStorage entry "polidle-best" *)
  draws : nat;                 (* calls to Math.random() so far *)
  view : View
}.

(** A handler either runs to its end or throws a [TypeError]; what it
    assigned before throwing stays assigned. *)
Inductive Outcome : Type :=
| Done (s : State)
| Threw (s : State).

Definition state_of (o : Outcome) : State :=
  match o with Done s | Threw s => s end.

(** What a [fetch] of one dataset comes to; a body that parses is an array
    of records. *)
Inductive Fetched : Type :=
| NetworkError
| HttpError
| BadJson
| Json (body : list Politician).

Inductive Boot : Type :=
| NoData
| Ready (s : State).

Inductive Event : Type :=
| Guess (sigle : string)
| Advance
| Key (key : string)
| SelectMode (newMode : string)
| PhotoFailed.

Definition blank_view : View :=
  {| shown := None; badge := None; reveal := None; nextBtn := false;
     buttons := []; board := None |}.

(** The globals as the script declares them. *)
Definition initial_state (stored : option string) : State :=
  {| deputes := []; senateurs := []; pool := []; currentIndex := 0%nat;
     score := 0; total := 0; streak := 0; bestStreak := Num 0;
     mode := "both"; answered := false; parties := [];
     storage := stored; draws := 0%nat; view := blank_view |}.

Definition has_photo (p : Politician) : bool := truthy (photo p).

(** [[arr[i], arr[j]] = [arr[j], arr[i]]]: both reads, then both writes. *)
Definition swap (arr : list Politician) (i j : nat) : list Politician :=
  match arr !! j, arr !! i with
  | Some aj, Some ai => <[j := ai]> (<[i := aj]> arr)
  | _, _ => arr
  end.

(** [Math.floor(r * (i + 1))], with the product taken exactly.  The
    script multiplies doubles: for [r < 1] the rounded product stays below
    [i + 1] just as the exact one does, and the two are the same number
    whenever the exact product is itself a double. *)
Definition rand_index (r : Q) (i : nat) : nat :=
  Z.to_nat (Qfloor (r * inject_Z (Z.of_nat i + 1))).

Definition updateScoreDisplay (s : State) : View :=
  {| shown := shown (view s); badge := badge (view s);
     reveal := reveal (view s); nextBtn := nextBtn (view s);
     buttons := buttons (view s);
     board := Some (mkBoard (score s) (total s) (streak s) (bestStreak s)) |}.

Definition renderPartyButtons (pool : list Politician) (parties : list string)
  : list Button :=
  map (fun sigle => mkButton sigle (getPartyConfig pool sigle) Plain false)
      parties.

Definition badge_of (mode : string) (pol : Politician) : option string :=
  if bool_decide (mode = "both")
  then Some (if bool_decide (type pol = "depute") then "Assemblée" else "Sénat")
  else None.

(** The class each party button gets once a guess is in. *)
Definition mark_button (pol : Politician) (guessedSigle : string)
  (isCorrect : bool) (b : Button) : Button :=
  let cls :=
    if bool_decide (Some (b_sigle b) = groupe_sigle pol) then Correct
    else if bool_decide (b_sigle b = guessedSigle) && negb isCorrect then Wrong
    else Dimmed in
  mkButton (b_sigle b) (b_cfg b) cls true.

Section Engine.

(** The values [Math.random()] returns, in the order of the calls. *)
Variable random : nat -> Q.

(** [shuffle]: the loop [for (i = arr.length - 1; i > 0; i--)], the [k]-th
    draw deciding the first swap. *)
Fixpoint shuffle_from (i : nat) (arr : list Politician) (k : nat)
  : list Politician * nat :=
  match i with
  | O => (arr, k)
  | S i' => shuffle_from i' (swap arr i (rand_index (random k) i)) (S k)
  end.

Definition shuffle (arr : list Politician) (k : nat) : list Politician * nat :=
  shuffle_from (length arr - 1) arr k.

Definition nextPolitician (s : State) : State :=
  if bool_decide (length (pool s) = 0%nat) then s
  else
    let '(pool', k, idx) :=
      if bool_decide (length (pool s) <= currentIndex s)%nat
      then (shuffle (pool s) (draws s), 0%nat)
      else (pool s, draws s, currentIndex s) in
    let pol := pool' !! idx in
    {| deputes := deputes s; senateurs := senateurs s;
       pool := pool'; currentIndex := idx;
       score := score s; total := total s; streak := streak s;
       bestStreak := bestStreak s; mode := mode s;
       answered := false;
       parties := parties s; storage := storage s; draws := k;
       view :=
         {| shown := pol;
            badge := pol ≫= badge_of (mode s);
            reveal := None;
            nextBtn := false;
            buttons := renderPartyButtons pool' (parties s);
            board := board (view s) |} |}.

(** [els.photo.onerror], the handler [nextPolitician] installs. *)
Definition photo_onerror (s : State) : State :=
  let pool' := delete (currentIndex s) (pool s) in
  let s1 :=
    {| deputes := deputes s; senateurs := senateurs s;
       pool := pool'; currentIndex := currentIndex s;
       score := score s; total := total s; streak := streak s;
       bestStreak := bestStreak s; mode := mode s; answered := answered s;
       parties := parties s; storage := storage s; draws := draws s;
       view := view s |} in
  if bool_decide (length pool' = 0%nat) then s1
  else
    nextPolitician
      {| deputes := deputes s; senateurs := senateurs s;
         pool := pool';
         currentIndex :=
           if bool_decide (length pool' <= currentIndex s)%nat then 0%nat
           else currentIndex s;
         score := score s; total := total s; streak := streak s;
         bestStreak := bestStreak s; mode := mode s; answered := answered s;
         parties := parties s; storage := storage s; draws := draws s;
         view := view s |}.

Definition pool_for (newMode : string) (deputes senateurs : list Politician)
  : list Politician :=
  if bool_decide (newMode = "deputes") then deputes
  else if bool_decide (newMode = "senateurs") then senateurs
  else deputes ++ senateurs.

Definition setMode (s : State) (newMode : string) : State :=
  let pool0 := pool_for newMode (deputes s) (senateurs s) in
  let '(pool', k) := shuffle pool0 (draws s) in
  let s1 :=
    {| deputes := deputes s; senateurs := senateurs s;
       pool := pool'; currentIndex := 0%nat;
       score := 0; total := 0; streak := 0;
       bestStreak := bestStreak s; mode := newMode; answered := answered s;
       parties := compute_parties pool0;
       storage := storage s; draws := k;
       view := view s |} in
  nextPolitician
    {| deputes := deputes s1; senateurs := senateurs s1;
       pool := pool s1; currentIndex := currentIndex s1;
       score := score s1; total := total s1; streak := streak s1;
       bestStreak := bestStreak s1; mode := mode s1; answered := answered s1;
       parties := parties s1; storage := storage s1; draws := draws s1;
       view := updateScoreDisplay s1 |}.

Definition handleGuess (s : State) (guessedSigle : string) : Outcome :=
  if answered s then Done s
  else
    let total' := total s + 1 in
    match pool s !! currentIndex s with
    | None =>
        (* [pol] is undefined: reading [pol.groupe_sigle] throws *)
        Threw
          {| deputes := deputes s; senateurs := senateurs s; pool := pool s;
             currentIndex := currentIndex s;
             score := score s; total := total'; streak := streak s;
             bestStreak := bestStreak s; mode := mode s; answered := true;
             parties := parties s; storage := storage s; draws := draws s;
             view := view s |}
    | Some pol =>
        let isCorrect := bool_decide (Some guessedSigle = groupe_sigle pol) in
        let score' := if isCorrect then score s + 1 else score s in
        let streak' := if isCorrect then streak s + 1 else 0 in
        let newBest := isCorrect && js_gt streak' (bestStreak s) in
        let best' := if newBest then Num streak' else bestStreak s in
        let storage' :=
          if newBest then Some (String_of_Z streak') else storage s in
        let marked :=
          map (mark_button pol guessedSigle isCorrect) (buttons (view s)) in
        match groupe_sigle pol with
        | None =>
            (* [getPartyConfig(undefined)] reaches [autoColor(undefined)],
               which throws on [str.length] *)
            Threw
              {| deputes := deputes s; senateurs := senateurs s;
                 pool := pool s; currentIndex := currentIndex s;
                 score := score'; total := total'; streak := streak';
                 bestStreak := best'; mode := mode s; answered := true;
                 parties := parties s; storage := storage'; draws := draws s;
                 view :=
                   {| shown := shown (view s); badge := badge (view s);
                      reveal := reveal (view s); nextBtn := nextBtn (view s);
                      buttons := marked; board := board (view s) |} |}
        | Some sigle =>
            let cfg := getPartyConfig (pool s) sigle in
            Done
              {| deputes := deputes s; senateurs := senateurs s;
                 pool := pool s; currentIndex := S (currentIndex s);
                 score := score'; total := total'; streak := streak';
                 bestStreak := best'; mode := mode s; answered := true;
                 parties := parties s; storage := storage'; draws := draws s;
                 view :=
                   {| shown := shown (view s); badge := badge (view s);
                      reveal :=
                        Some (mkReveal isCorrect (nom_complet pol)
                                (js_str (cfg_name cfg)
                                 +:+ " (" +:+ sigle +:+ ")"));
                      nextBtn := true;
                      buttons := marked;
                      board :=
                        Some (mkBoard score' total' streak' best') |} |}
        end
    end.

(** [handleKeydown], on [e.key]. *)
Definition handleKeydown (s : State) (key : string) : State :=
  if answered s && (bool_decide (key = "Enter") || bool_decide (key = " "))
  then nextPolitician s
  else if negb (answered s) && String.leb "1" key && String.leb key "9"
  then
    match parseInt key with
    | Num n =>
        match parties s !! Z.to_nat (n - 1) with
        | Some sigle => state_of (handleGuess s sigle)
        | None => s
        end
    | NaN => s
    end
  else s.

(** One event of the page, handled to completion. *)
Definition step (s : State) (e : Event) : State :=
  match e with
  | Guess sigle => state_of (handleGuess s sigle)
  | Advance => nextPolitician s
  | Key key => handleKeydown s key
  | SelectMode newMode => setMode s newMode
  | PhotoFailed =>
      match shown (view s) with
      | Some _ => photo_onerror s
      | None => s       (* no photo requested yet, no handler installed *)
      end
  end.

Definition run (s : State) (es : list Event) : State := fold_left step es s.

(** [localStorage.getItem("polidle-best") || "0"] *)
Definition stored_or_zero (stored : option string) : string :=
  match stored with
  | Some v => if truthy (Some v) then v else "0"
  | None => "0"
  end.

Definition load_both (r1 r2 : Fetched)
  : option (list Politician * list Politician) :=
  match r1, r2 with
  | Json depRes, Json senRes =>
      Some (filter has_photo depRes, filter has_photo senRes)
  | _, _ => None
  end.

(** The second, separate attempt at one resource: [if (r.ok) x = await
    r.json()], any failure swallowed. *)
Definition load_alone (r : Fetched) : list Politician :=
  match r with
  | Json body => body
  | _ => []
  end.

(** The globals once the datasets are in and the best streak is restored:
    [bestStreak = parseInt(localStorage.getItem("polidle-best") || "0", 10)]. *)
Definition restored (stored : option string) (deps sens : list Politician)
  : State :=
  let s0 := initial_state stored in
  {| deputes := deps; senateurs := sens;
     pool := pool s0; currentIndex := currentIndex s0;
     score := score s0; total := total s0; streak := streak s0;
     bestStreak := parseInt (stored_or_zero stored);
     mode := mode s0; answered := answered s0;
     parties := parties s0; storage := storage s0; draws := draws s0;
     view := view s0 |}.

(** What the two loading attempts leave in [deputes] and [senateurs]. *)
Definition loaded (dep1 sen1 dep2 sen2 : Fetched)
  : list Politician * list Politician :=
  match load_both dep1 sen1 with
  | Some both => both
  | None => (load_alone dep2, load_alone sen2)
  end.

(** [init]: [dep1], [sen1] are the two fetches of [Promise.all]; [dep2],
    [sen2] the fetches of the [catch] branch, made only if that failed. *)
Definition init (stored : option string) (dep1 sen1 dep2 sen2 : Fetched)
  : Boot :=
  let '(deps, sens) := loaded dep1 sen1 dep2 sen2 in
  if bool_decide (length deps = 0%nat) && bool_decide (length sens = 0%nat)
  then NoData
  else Ready (setMode (restored stored deps sens) "both").

End Engine.

(** ** Sample data, used by the examples below *)

Definition pol_a : Politician :=
  mkPolitician "Alice Martin" "depute" (Some "RN") (Some "Rassemblement National")
    (Some "photos/a.jpg").
Definition pol_b : Politician :=
  mkPolitician "Bruno Petit" "depute" (Some "EPR") None (Some "photos/b.jpg").
Definition pol_c : Politician :=
  mkPolitician "Chloe Roux" "senateur" (Some "RN") None (Some "photos/c.jpg").
Definition pol_d : Politician :=
  mkPolitician "Denis Faure" "senateur" (Some "") None (Some "photos/d.jpg").
Definition pol_e : Politician :=
  mkPolitician "Emma Blanc" "senateur" (Some "XX") (Some "Groupe X") None.
Definition pol_s : Politician :=
  mkPolitician "Serge Colin" "depute" (Some "SOC") None (Some "photos/s.jpg").
Definition pol_k : Politician :=
  mkPolitician "Karim Leroy" "depute" (Some "constructor")
    (Some "Les Constructeurs") (Some "photos/k.jpg").

(** A random source that always returns 0, and one that cycles through
    0, 1/3, 2/3. *)
Definition random_zero : nat -> Q := fun _ => 0%Q.
Definition random_thirds : nat -> Q := fun n => (Z.of_nat (n mod 3) # 3)%Q.

(** The session right after a start-up that loaded [deps] and [sens]. *)
Definition boot_state (random : nat -> Q) (stored : option string)
  (deps sens : list Politician) : State :=
  match init random stored (Json deps) (Json sens) NetworkError NetworkError with
  | Ready s => s
  | NoData => initial_state stored
  end.

(** The largest [streak] among the states a run goes through. *)
Fixpoint max_streak (random : nat -> Q) (s : State) (es : list Event) : Z :=
  match es with
  | [] => streak s
  | e :: rest => Z.max (streak s) (max_streak random (step random s e) rest)
  end.

(** [p] is the first record of [pool] whose group code is [code]. *)
Definition first_match (pool : list Politician) (code : string)
  (p : Politician) : Prop :=
  ∃ i, pool !! i = Some p ∧ groupe_sigle p = Some code ∧
       ∀ j q, (j < i)%nat → pool !! j = Some q → groupe_sigle q ≠ Some code.

(** Every record the session holds has a photo. *)
Definition photos_ok (s : State) : Prop :=
  Forall (λ p, has_photo p = true) (deputes s) ∧
  Forall (λ p, has_photo p = true) (senateurs s) ∧
  Forall (λ p, has_photo p = true) (pool s).

(** [bestStreak] is the number [b], and the streak is between 0 and [b]. *)
Definition best_is (b : Z) (s : State) : Prop :=
  bestStreak s = Num b ∧ 0 <= streak s <= b.

(** The stored value reads back as the current best streak. *)
Definition stored_reads (s : State) : Prop :=
  parseInt (stored_or_zero (storage s)) = bestStreak s.

(** The digits of a decimal numeral, most significant first. *)
Fixpoint uint_digits (u : Decimal.uint) : list Z :=
  match u with
  | Decimal.Nil => []
  | Decimal.D0 l => 0 :: uint_digits l
  | Decimal.D1 l => 1 :: uint_digits l
  | Decimal.D2 l => 2 :: uint_digits l
  | Decimal.D3 l => 3 :: uint_digits l
  | Decimal.D4 l => 4 :: uint_digits l
  | Decimal.D5 l => 5 :: uint_digits l
  | Decimal.D6 l => 6 :: uint_digits l
  | Decimal.D7 l => 7 :: uint_digits l
  | Decimal.D8 l => 8 :: uint_digits l
  | Decimal.D9 l => 9 :: uint_digits l
  end.

(** Sessions the examples start from: the page right after loading, with
    the random source stuck at 0. *)
Definition session_abc : State :=
  boot_state random_zero None [pol_a; pol_b] [pol_c].
Definition session_stored_5 : State :=
  boot_state random_zero (Some "5") [pol_a; pol_b] [pol_c].
Definition session_corrupt : State :=
  boot_state random_zero (Some "abc") [pol_a; pol_b] [pol_c].
Definition session_no_code : State :=
  boot_state random_zero None [pol_a] [pol_d].

(** ** Further notions, used by the properties of the whole game *)

(** The counters are ordered: a streak is part of the score, and every
    point of the score is an answer. *)
Definition counters_ok (s : State) : Prop :=
  0 <= streak s ∧ streak s <= score s ∧ score s <= total s.

(** The cursor is inside the pool or just past its end; while a guess is
    awaited on a non-empty pool it is on the candidate shown. *)
Definition cursor_ok (s : State) : Prop :=
  (currentIndex s <= length (pool s))%nat ∧
  (answered s = false → pool s ≠ [] →
     (currentIndex s < length (pool s))%nat ∧
     shown (view s) = pool s !! currentIndex s).

Definition has_code (p : Politician) : Prop := is_Some (groupe_sigle p).

(** A guess followed by a click on "next", once per guess of the list. *)
Fixpoint play (guesses : list string) : list Event :=
  match guesses with
  | [] => []
  | g :: rest => Guess g :: Advance :: play rest
  end.

(** How many of the guesses name the group of the record they face. *)
Fixpoint hits (candidates : list Politician) (guesses : list string) : Z :=
  match candidates, guesses with
  | p :: candidates', g :: guesses' =>
      (if bool_decide (groupe_sigle p = Some g) then 1 else 0)
      + hits candidates' guesses'
  | _, _ => 0
  end.

(** The base-31 polynomial of the character codes. *)
Fixpoint poly31_from (h : Z) (str : string) : Z :=
  match str with
  | EmptyString => h
  | String c rest => poly31_from (31 * h + charCode c) rest
  end.

Definition poly31 (str : string) : Z := poly31_from 0 str.

(** Every non-empty group code of a pool record is in the choice list. *)
Definition codes_offered (s : State) : Prop :=
  ∀ p c, p ∈ pool s → groupe_sigle p = Some c → c ≠ "" → c ∈ parties s.

(** While a guess is awaited on a non-empty pool, the buttons are the
    fresh buttons of the choice list. *)
Definition buttons_fresh (s : State) : Prop :=
  answered s = false → pool s ≠ [] →
  buttons (view s) = renderPartyButtons (pool s) (parties s).

(** A draw that makes [rand_index] pick [j] among [0..i]: the least
    multiple of 2^-27 that is at least [j / (i + 1)].  It is a double, and
    for [i + 1 <= 2^26] its product with [i + 1] has at most 53 significant
    bits, so the script computes that product exactly. *)
Definition dyadic_draw (j i : nat) : Q :=
  ((Z.of_nat j * 2 ^ 27 + Z.of_nat i) / (Z.of_nat i + 1)) # (2 ^ 27).

(** A random source whose draws pick the indices [js], one after the
    other, in a shuffle that starts at position [i]. *)
Definition random_of (js : list nat) (i : nat) : nat -> Q :=
  fun m => match js !! m with
           | Some j => dyadic_draw j (i - m)
           | None => 0 # (2 ^ 27)
           end.

(** A record without a group code, and sessions for the examples below. *)
Definition pol_n : Politician :=
  mkPolitician "Nadia Morel" "depute" None None (Some "photos/n.jpg").

Definition session_no_group : State :=
  boot_state random_zero None [pol_n] [].

Definition session_deputes_only : State :=
  match init random_zero None HttpError NetworkError (Json [pol_a; pol_b])
          BadJson with
  | Ready s => s
  | NoData => initial_state None
  end.

(** * Properties *)

(** ** Values *)

Example parseInt_7 : parseInt "7" = Num 7.
Proof. reflexivity. Qed.

Example parseInt_sign : parseInt "  -12px" = Num (-12).
Proof. reflexivity. Qed.

Example parseInt_letters : parseInt "abc" = NaN.
Proof. reflexivity. Qed.

Example autoColor_XYZ : autoColor "XYZ" = "hsl(297, 55%, 45%)".
Proof. vm_compute. reflexivity. Qed.

Example registry_RN :
  getPartyConfig [] "RN"
  = Config (mkParty "Rassemblement National" "#0D378A").
Proof. vm_compute. reflexivity. Qed.

Lemma truthy_Some (v : option string) :
  truthy v = true ↔ ∃ s, v = Some s ∧ s ≠ "".
Proof.
  destruct v as [[|c s]|]; simpl; split; try discriminate.
  - intros (s & [= <-] & Hs). congruence.
  - intros _. eauto.
  - intros _. reflexivity.
  - intros (s & [=] & _).
Qed.

Lemma hue_of_range (str : string) : 0 <= hue_of str < 360.
Proof.
  unfold hue_of.
  pose proof (Z.rem_bound_abs (hash_of str) 360 ltac:(lia)).
  lia.
Qed.

(** The hash reads the string left to right: appending a character applies
    one more step to the hash of the prefix. *)
Lemma hash_from_snoc (str : string) (c : ascii) (h : Z) :
  hash_from h (str +:+ String c EmptyString) = hash_step (hash_from h str) c.
Proof.
  revert h. induction str as [|c' str IH]; intros h; simpl; [reflexivity|].
  apply IH.
Qed.

Lemma ToInt32_range (z : Z) : - 2 ^ 31 <= ToInt32 z < 2 ^ 31.
Proof.
  unfold ToInt32.
  pose proof (Z.mod_pos_bound (z + 2 ^ 31) (2 ^ 32) ltac:(lia)). lia.
Qed.

Lemma charCode_range (c : ascii) : 0 <= charCode c < 256.
Proof.
  unfold charCode. pose proof (N_ascii_bounded c). lia.
Qed.

(** The hash stays far below 2^53 on any string a dataset can hold, so the
    integer arithmetic above is the arithmetic of the script. *)
Lemma hash_from_bound (str : string) (h : Z) :
  Z.abs (hash_from h str)
    <= Z.abs h + Z.of_nat (String.length str) * (2 ^ 31 + 256).
Proof.
  revert h. induction str as [|c str IH]; intros h; simpl String.length.
  - simpl. lia.
  - simpl hash_from. etrans; [apply IH|].
    unfold hash_step, shl5.
    pose proof (ToInt32_range (Z.shiftl (ToInt32 h) 5)).
    pose proof (charCode_range c). lia.
Qed.

(** *** [parseInt] reads back what [String] writes *)

Lemma leading_digits_string_of_uint (u : Decimal.uint) :
  leading_digits (NilEmpty.string_of_uint u) = uint_digits u.
Proof.
  induction u as [|u IH|u IH|u IH|u IH|u IH|u IH|u IH|u IH|u IH|u IH];
    [reflexivity|..];
    cbn [NilEmpty.string_of_uint leading_digits uint_digits];
    rewrite <- IH; reflexivity.
Qed.

Lemma of_uint_acc_value (u : Decimal.uint) (acc : positive) :
  Z.pos (Pos.of_uint_acc u acc)
  = fold_left (fun a d => 10 * a + d) (uint_digits u) (Z.pos acc).
Proof.
  revert acc.
  induction u as [|u IH|u IH|u IH|u IH|u IH|u IH|u IH|u IH|u IH|u IH];
    intros acc; [reflexivity|..];
    cbn [Pos.of_uint_acc uint_digits fold_left];
    rewrite IH; f_equal; lia.
Qed.

Lemma digits_value_uint (u : Decimal.uint) :
  digits_value (uint_digits u) = Z.of_N (Pos.of_uint u).
Proof.
  unfold digits_value.
  induction u as [|u IH|u IH|u IH|u IH|u IH|u IH|u IH|u IH|u IH|u IH];
    [reflexivity|exact IH|..];
    cbn [Pos.of_uint uint_digits fold_left Z.of_N];
    rewrite of_uint_acc_value; reflexivity.
Qed.

Ltac eval_white_space :=
  repeat match goal with
    | |- context [is_white_space ?c] =>
        let b := eval vm_compute in (is_white_space c) in
        change (is_white_space c) with b
    end.

Lemma parseInt_string_of_uint (u : Decimal.uint) :
  u ≠ Decimal.Nil →
  parseInt (NilEmpty.string_of_uint u) = Num (Z.of_N (Pos.of_uint u)) ∧
  parseInt (String "-" (NilEmpty.string_of_uint u))
    = Num (- Z.of_N (Pos.of_uint u)).
Proof.
  intros Hu. rewrite <- digits_value_uint.
  pose proof (leading_digits_string_of_uint u) as Hd.
  destruct u; [done|..]; split;
    unfold parseInt;
    cbn [NilEmpty.string_of_uint skip_white_space] in *;
    eval_white_space; cbn iota beta;
    rewrite Hd; cbn [uint_digits]; f_equal; lia.
Qed.

(** Whatever integer the game writes with [String(bestStreak)], the next
    start-up reads the same integer. *)
Lemma parseInt_String_of_Z (n : Z) :
  parseInt (stored_or_zero (Some (String_of_Z n))) = Num n.
Proof.
  unfold String_of_Z, Z.to_int.
  destruct n as [|p|p]; [reflexivity|..];
    pose proof (Unsigned.of_to p) as Hp;
    (assert (Hu : Pos.to_uint p ≠ Decimal.Nil)
       by (intros E; rewrite E in Hp; discriminate));
    destruct (parseInt_string_of_uint _ Hu) as (H1 & H2);
    cbn [NilZero.string_of_int]; unfold NilZero.string_of_uint.
  - destruct (Pos.to_uint p) eqn:E; [done|..];
      rewrite <- E in *; unfold stored_or_zero;
      (destruct (NilEmpty.string_of_uint (Pos.to_uint p)) eqn:Es;
         [by rewrite E in Es|]);
      cbn [truthy]; rewrite H1, Hp; reflexivity.
  - destruct (Pos.to_uint p) eqn:E; [done|..];
      rewrite <- E in *; unfold stored_or_zero;
      cbn [truthy]; rewrite H2, Hp; reflexivity.
Qed.

(** ** The choice list *)

#[global] Instance str_le_total : Total str_le.
Proof. intros a b. apply String.leb_total. Qed.

Lemma str_le_antisym (a b : string) : str_le a b → str_le b a → a = b.
Proof. apply String.leb_antisym. Qed.

Lemma str_le_compare (a b : string) :
  str_le a b ↔ a = b ∨ String_as_OT.lt a b.
Proof.
  unfold str_le, String.leb.
  rewrite <- String_as_OT.cmp_lt, <- String_as_OT.cmp_eq.
  unfold String_as_OT.cmp.
  destruct (String.compare a b); split; intros H; try discriminate; auto;
    destruct H; discriminate.
Qed.

#[global] Instance str_le_trans : Transitive str_le.
Proof.
  intros a b c. rewrite !str_le_compare.
  intros [->|Hab] [->|Hbc]; auto.
  right. eapply String_as_OT.lt_trans; eauto.
Qed.

Lemma elem_of_set_values_from (seen l : list (option string)) v :
  v ∈ set_values_from seen l ↔ v ∈ l ∧ v ∉ seen.
Proof.
  revert seen. induction l as [|x l IH]; intros seen; simpl.
  - split; [inversion 1 | intros [H _]; inversion H].
  - destruct (decide (x ∈ seen)) as [Hx|Hx].
    + rewrite IH, elem_of_cons. split; [tauto|].
      intros [[->|Hv] Hn]; [contradiction | auto].
    + rewrite !elem_of_cons, IH, elem_of_cons.
      destruct (decide (v = x)) as [->|Hne]; [tauto|]. tauto.
Qed.

Lemma NoDup_set_values_from (seen l : list (option string)) :
  NoDup (set_values_from seen l).
Proof.
  revert seen. induction l as [|x l IH]; intros seen; simpl.
  - constructor.
  - destruct (decide (x ∈ seen)); [apply IH|].
    constructor; [|apply IH].
    rewrite elem_of_set_values_from, elem_of_cons. tauto.
Qed.

Lemma elem_of_Set_values (l : list (option string)) v :
  v ∈ Set_values l ↔ v ∈ l.
Proof.
  unfold Set_values. rewrite elem_of_set_values_from.
  split; [tauto|]. intros H; split; [done|]. inversion 1.
Qed.

Lemma elem_of_filter_Boolean (l : list (option string)) (c : string) :
  c ∈ filter_Boolean l ↔ c ≠ "" ∧ Some c ∈ l.
Proof.
  unfold filter_Boolean. rewrite list_elem_of_omap. split.
  - intros (v & Hv & Hf). destruct (truthy v) eqn:Ht; [|discriminate].
    subst v. apply truthy_Some in Ht as (s & [= <-] & Hs). auto.
  - intros [Hc Hin]. exists (Some c). split; [done|].
    destruct c; [congruence | reflexivity].
Qed.

Lemma NoDup_filter_Boolean (l : list (option string)) :
  NoDup l → NoDup (filter_Boolean l).
Proof.
  induction 1 as [|v l Hv Hl IH]; simpl; [constructor|].
  unfold filter_Boolean in *. simpl.
  destruct (truthy v) eqn:Ht; [|exact IH].
  destruct v as [c|]; [|discriminate]. simpl.
  constructor; [|exact IH].
  intros Hin. apply (elem_of_filter_Boolean l c) in Hin. tauto.
Qed.

(** The choice list is sorted, has no duplicates, and holds exactly the
    non-empty group codes of the pool. *)
Lemma compute_parties_spec (pool : list Politician) :
  Sorted str_le (compute_parties pool) ∧
  NoDup (compute_parties pool) ∧
  ∀ c, c ∈ compute_parties pool ↔
       c ≠ "" ∧ ∃ p, p ∈ pool ∧ groupe_sigle p = Some c.
Proof.
  unfold compute_parties. split; [|split].
  - apply Sorted_merge_sort, str_le_total.
  - rewrite merge_sort_Permutation.
    apply NoDup_filter_Boolean, NoDup_set_values_from.
  - intros c. rewrite merge_sort_Permutation, elem_of_filter_Boolean.
    rewrite elem_of_Set_values, list_elem_of_fmap. split.
    + intros [Hc (p & Hp & Hin)]. eauto.
    + intros [Hc (p & Hin & Hp)]. eauto.
Qed.

(** Sorted lists with the same elements and no duplicates are equal: the
    choice list does not depend on the order of the pool. *)
Lemma compute_parties_Permutation (pool1 pool2 : list Politician) :
  pool1 ≡ₚ pool2 → compute_parties pool1 = compute_parties pool2.
Proof.
  intros Hp.
  destruct (compute_parties_spec pool1) as (S1 & N1 & E1).
  destruct (compute_parties_spec pool2) as (S2 & N2 & E2).
  apply (Sorted_unique_strong str_le); try done.
  - intros x1 x2 _ _. apply str_le_antisym.
  - apply NoDup_Permutation; try done.
    intros c. rewrite E1, E2. setoid_rewrite Hp. done.
Qed.

(** ** Party registry resolution *)

Lemma find_by_sigle_Some (pool : list Politician) (code : string) p :
  find_by_sigle pool code = Some p → first_match pool code p.
Proof.
  unfold find_by_sigle, first_match.
  induction pool as [|q pool IH]; simpl; [discriminate|].
  case_bool_decide as Hq.
  - intros [= <-]. exists 0%nat. repeat split; [done|]. intros j r Hj. lia.
  - intros Hf. destruct (IH Hf) as (i & Hi & Hp & Hbefore).
    exists (S i). repeat split; [done..|].
    intros [|j] r Hj; simpl.
    + intros [= <-]. done.
    + apply Hbefore. lia.
Qed.

Lemma find_by_sigle_None (pool : list Politician) (code : string) :
  find_by_sigle pool code = None →
  ∀ p, p ∈ pool → groupe_sigle p ≠ Some code.
Proof.
  unfold find_by_sigle. intros Hf p Hin.
  apply list_elem_of_In in Hin.
  pose proof (find_none _ _ Hf p Hin) as Hp. simpl in Hp.
  by apply bool_decide_eq_false in Hp.
Qed.

(** The loop of [autoColor], spelled out on integers: the hash of the
    empty string is 0, and one more character [c] turns the hash [h] into
    [c + ((h << 5) - h)], the shift wrapping to 32 bits. *)
Lemma hash_of_unfold :
  hash_of "" = 0 ∧
  ∀ str c,
    hash_of (str +:+ String c EmptyString) =
      Z.of_N (N_of_ascii c)
      + ((((hash_of str + 2 ^ 31) mod 2 ^ 32 - 2 ^ 31) * 32 + 2 ^ 31)
           mod 2 ^ 32 - 2 ^ 31
         - hash_of str).
Proof.
  split; [reflexivity|]. intros str c. unfold hash_of.
  rewrite hash_from_snoc. unfold hash_step, shl5, ToInt32, charCode.
  rewrite Z.shiftl_mul_pow2 by lia. reflexivity.
Qed.

(** X21. Party-registry resolution, for a code that is not the name of a
    member inherited from [Object.prototype].  A code of the static
    registry gets its entry as it stands.  Any other code gets a fresh
    object: its colour is the one [autoColor] computes from the code alone,
    [hsl(h, 55%, 45%)] with [h = |hash rem 360|] between 0 and 359, where
    the hash starts at 0 and takes each character [c] in turn as
    [c + ((hash << 5) - hash)]; its name is the group name of the first
    pool record carrying that code when that name is present and
    non-empty, the code itself otherwise.  The colour of a code is the
    same whatever the pool. *)
Theorem getPartyConfig_spec (pool : list Politician) (code : string) :
  Object_prototype !! code = None →
  (∀ cfg, PARTY_COLORS !! code = Some cfg →
          getPartyConfig pool code = Config cfg) ∧
  (PARTY_COLORS !! code = None →
     ∃ n, getPartyConfig pool code = Config (mkParty n (autoColor code)) ∧
          ((∃ p, first_match pool code p ∧ groupe_nom p = Some n ∧ n ≠ "")
           ∨ (∃ p, first_match pool code p ∧ truthy (groupe_nom p) = false ∧
                   n = code)
           ∨ ((∀ p, p ∈ pool → groupe_sigle p ≠ Some code) ∧ n = code))) ∧
  (∃ hue, 0 <= hue < 360 ∧ hue = Z.abs (Z.rem (hash_of code) 360) ∧
          autoColor code = "hsl(" +:+ String_of_Z hue +:+ ", 55%, 45%)") ∧
  (hash_of "" = 0 ∧
   ∀ str c,
     hash_of (str +:+ String c EmptyString) =
       Z.of_N (N_of_ascii c)
       + ((((hash_of str + 2 ^ 31) mod 2 ^ 32 - 2 ^ 31) * 32 + 2 ^ 31)
            mod 2 ^ 32 - 2 ^ 31
          - hash_of str)) ∧
  (∀ pool', cfg_color (getPartyConfig pool' code)
            = cfg_color (getPartyConfig pool code)).
Proof.
  intros Hproto. unfold getPartyConfig, lookup_PARTY_COLORS.
  split; [|split; [|split; [|split]]].
  - intros cfg ->. reflexivity.
  - intros Hown. rewrite Hown, Hproto. cbn [fmap option_fmap option_map].
    eexists. split; [reflexivity|]. unfold fallback_name.
    destruct (find_by_sigle pool code) as [p|] eqn:Hf.
    + apply find_by_sigle_Some in Hf.
      destruct (groupe_nom p) as [n|] eqn:Hn.
      * destruct (truthy (Some n)) eqn:Ht.
        -- left. exists p. apply truthy_Some in Ht as (? & [= <-] & ?).
           done.
        -- right; left. exists p. by rewrite Hn.
      * right; left. exists p. by rewrite Hn.
    + right; right. split; [|done]. by apply find_by_sigle_None.
  - exists (hue_of code). split; [apply hue_of_range|]. done.
  - apply hash_of_unfold.
  - intros pool'. destruct (PARTY_COLORS !! code); [reflexivity|].
    rewrite Hproto. reflexivity.
Qed.

(** C9, the failing input.  "constructor" is not a key of the registry,
    and a pool record carries it as group code with a group name; the
    lookup finds the function [Object] that every object inherits and
    [getPartyConfig] returns it: the name is "Object", not the group name
    of the record, and there is no colour at all. *)
Theorem getPartyConfig_inherited_key :
  PARTY_COLORS !! "constructor" = None ∧
  find_by_sigle [pol_k] "constructor" = Some pol_k ∧
  groupe_nom pol_k = Some "Les Constructeurs" ∧
  getPartyConfig [pol_k] "constructor" = Member (BuiltinFunction "Object") ∧
  cfg_name (getPartyConfig [pol_k] "constructor") = Some "Object" ∧
  cfg_color (getPartyConfig [pol_k] "constructor") = None.
Proof. vm_compute. repeat split. Qed.

(** The hash depends on the order of the characters. *)
Example autoColor_order :
  autoColor "AB" = "hsl(281, 55%, 45%)" ∧ autoColor "BA" = "hsl(311, 55%, 45%)".
Proof. split; vm_compute; reflexivity. Qed.

(** A code outside the registry is named after the first record that
    carries it. *)
Example getPartyConfig_fallback :
  getPartyConfig [pol_a; pol_e] "XX"
  = Config (mkParty "Groupe X" "hsl(296, 55%, 45%)").
Proof. vm_compute. reflexivity. Qed.

(** ** The engine *)

Section EngineFacts.

Variable random : nat -> Q.

(** [Math.random()] returns a number in [0, 1). *)
Hypothesis random_range : ∀ n, (0 <= random n < 1)%Q.

Lemma rand_index_le (n i : nat) : (rand_index (random n) i <= i)%nat.
Proof.
  unfold rand_index.
  destruct (random_range n) as [H0 H1].
  set (m := Z.of_nat i + 1).
  assert (Hm : (inject_Z 0 < inject_Z m)%Q).
  { rewrite <- Zlt_Qlt. lia. }
  assert (Hlt : (random n * inject_Z m < inject_Z m)%Q).
  { rewrite <- (Qmult_1_l (inject_Z m)) at 2.
    apply Qmult_lt_compat_r; assumption. }
  assert (Hfl : Qfloor (random n * inject_Z m) < m).
  { rewrite Zlt_Qlt. eapply Qle_lt_trans; [apply Qfloor_le|exact Hlt]. }
  lia.
Qed.

Lemma swap_length (arr : list Politician) (i j : nat) :
  length (swap arr i j) = length arr.
Proof.
  unfold swap. destruct (arr !! j), (arr !! i); try done.
  by rewrite !length_insert.
Qed.

Lemma swap_Permutation (arr : list Politician) (i j : nat) :
  (i < length arr)%nat → (j < length arr)%nat → swap arr i j ≡ₚ arr.
Proof.
  intros Hi Hj. unfold swap.
  destruct (lookup_lt_is_Some_2 arr i Hi) as [ai Hai].
  destruct (lookup_lt_is_Some_2 arr j Hj) as [aj Haj].
  rewrite Hai, Haj. by apply Permutation_insert_swap.
Qed.

Lemma shuffle_from_spec (i : nat) (arr : list Politician) (k : nat) :
  (i < length arr ∨ i = 0)%nat →
  (shuffle_from random i arr k).1 ≡ₚ arr ∧
  (shuffle_from random i arr k).2 = (k + i)%nat.
Proof.
  revert arr k. induction i as [|i IH]; intros arr k Hi; simpl.
  - split; [done | lia].
  - assert (Hlt : (S i < length arr)%nat) by lia.
    pose proof (rand_index_le k (S i)) as Hj.
    destruct (IH (swap arr (S i) (rand_index (random k) (S i))) (S k))
      as [Hp Hk].
    { rewrite swap_length. lia. }
    split; [|lia].
    rewrite Hp. apply swap_Permutation; lia.
Qed.

Lemma shuffle_spec (arr : list Politician) (k : nat) :
  (shuffle random arr k).1 ≡ₚ arr ∧
  (shuffle random arr k).2 = (k + (length arr - 1))%nat.
Proof. unfold shuffle. apply shuffle_from_spec. lia. Qed.

Lemma nextPolitician_pool (s : State) :
  pool (nextPolitician random s) ≡ₚ pool s.
Proof.
  unfold nextPolitician. case_bool_decide; [done|].
  case_bool_decide.
  - destruct (shuffle random (pool s) (draws s)) as [arr k] eqn:Hs. simpl.
    pose proof (shuffle_spec (pool s) (draws s)) as [Hp _].
    by rewrite Hs in Hp.
  - done.
Qed.

(** C10. [shuffle] permutes its array: the result holds the same records
    with the same multiplicities, whatever the draws of the random source
    (one draw per position but the first).  When the cursor has reached
    the end of a non-empty pool, [nextPolitician] replaces the pool by its
    shuffle and resets the cursor: nothing is added, dropped or
    duplicated. *)
Theorem shuffle_permutes :
  (∀ arr k, (shuffle random arr k).1 ≡ₚ arr ∧
            length (shuffle random arr k).1 = length arr ∧
            (shuffle random arr k).2 = (k + (length arr - 1))%nat) ∧
  (∀ s, pool s ≠ [] → (length (pool s) <= currentIndex s)%nat →
        pool (nextPolitician random s) = (shuffle random (pool s) (draws s)).1 ∧
        currentIndex (nextPolitician random s) = 0%nat ∧
        pool (nextPolitician random s) ≡ₚ pool s).
Proof.
  split.
  - intros arr k. destruct (shuffle_spec arr k) as [Hp Hk].
    split; [done|]. split; [by rewrite Hp | done].
  - intros s Hne Hwrap. split; [|split; [|apply nextPolitician_pool]].
    + unfold nextPolitician.
      rewrite bool_decide_eq_false_2
        by (intros E; by apply length_zero_iff_nil in E).
      rewrite bool_decide_eq_true_2 by done.
      by destruct (shuffle random (pool s) (draws s)).
    + unfold nextPolitician.
      rewrite bool_decide_eq_false_2
        by (intros E; by apply length_zero_iff_nil in E).
      rewrite bool_decide_eq_true_2 by done.
      by destruct (shuffle random (pool s) (draws s)).
Qed.

(** *** Guess handling *)

(** C4. A guess on a candidate that has already been answered changes
    nothing at all: the handler returns the state it was given, so [score],
    [total], [streak], [bestStreak] and everything else stay. *)
Theorem handleGuess_idempotent (s : State) (g : string) :
  answered s = true → handleGuess s g = Done s.
Proof. intros Ha. unfold handleGuess. by rewrite Ha. Qed.

Lemma handleGuess_answers (s : State) (g : string) :
  answered (state_of (handleGuess s g)) = true.
Proof.
  unfold handleGuess. destruct (answered s) eqn:Ha; [done|].
  destruct (pool s !! currentIndex s) as [pol|]; [|done].
  destruct (groupe_sigle pol); done.
Qed.

(** Two guesses in a row: the first leaves the candidate answered, so the
    second changes nothing. *)
Lemma handleGuess_twice (s : State) (g g' : string) :
  handleGuess (state_of (handleGuess s g)) g'
  = Done (state_of (handleGuess s g)).
Proof.
  pose proof (handleGuess_answers s g) as Ha.
  unfold handleGuess at 1. by rewrite Ha.
Qed.

(** What a guess leaves alone, whether it is ignored, completes or throws. *)
Lemma handleGuess_frame (s : State) (g : string) :
  let s' := state_of (handleGuess s g) in
  deputes s' = deputes s ∧ senateurs s' = senateurs s ∧ pool s' = pool s ∧
  mode s' = mode s ∧ parties s' = parties s ∧ draws s' = draws s ∧
  shown (view s') = shown (view s).
Proof.
  unfold handleGuess. destruct (answered s); [done|].
  destruct (pool s !! currentIndex s) as [pol|]; [|done].
  destruct (groupe_sigle pol); done.
Qed.

(** The fields a guess on an unanswered candidate assigns, in terms of the
    comparison [guessedSigle === pol.groupe_sigle]. *)
Lemma handleGuess_unanswered (s : State) (g : string) (pol : Politician) :
  answered s = false →
  pool s !! currentIndex s = Some pol →
  let ok := bool_decide (groupe_sigle pol = Some g) in
  let s' := state_of (handleGuess s g) in
  answered s' = true ∧
  total s' = total s + 1 ∧
  score s' = (if ok then score s + 1 else score s) ∧
  streak s' = (if ok then streak s + 1 else 0) ∧
  bestStreak s' =
    (if ok then if js_gt (streak s + 1) (bestStreak s)
                then Num (streak s + 1) else bestStreak s
     else bestStreak s) ∧
  storage s' =
    (if ok then if js_gt (streak s + 1) (bestStreak s)
                then Some (String_of_Z (streak s + 1)) else storage s
     else storage s) ∧
  (∀ c, groupe_sigle pol = Some c →
     handleGuess s g = Done s' ∧
     reveal (view s') =
       Some (mkReveal (bool_decide (g = c)) (nom_complet pol)
               (js_str (cfg_name (getPartyConfig (pool s) c))
                +:+ " (" +:+ c +:+ ")"))).
Proof.
  intros Ha Hpol ok s'. subst ok s'.
  unfold handleGuess. rewrite Ha, Hpol.
  rewrite (bool_decide_ext (Some g = groupe_sigle pol)
             (groupe_sigle pol = Some g)) by (split; congruence).
  destruct (groupe_sigle pol) as [c|] eqn:Hc;
    cbn [state_of answered total score streak bestStreak storage view reveal].
  - assert (Hrev : bool_decide (Some c = Some g) = bool_decide (g = c))
      by (apply bool_decide_ext; split; congruence).
    rewrite Hrev.
    destruct (bool_decide (g = c)) eqn:Hb; cbn [andb];
      do 6 (split; [reflexivity|]); intros c' [= <-]; rewrite Hb;
      split; reflexivity.
  - rewrite bool_decide_eq_false_2 by discriminate.
    do 6 (split; [reflexivity|]). intros c' [=].
Qed.


(** C1, amended.  A guess on an unanswered candidate that has a group code
    moves the cursor forward by one.  The turn advancement that follows
    does not move it further: it keeps the cursor where the guess left it,
    or resets it to 0 when it has reached the end of the pool. *)
Theorem handleGuess_advances_cursor (s : State) (g : string)
    (pol : Politician) (c : string) :
  answered s = false →
  pool s !! currentIndex s = Some pol →
  groupe_sigle pol = Some c →
  currentIndex (state_of (handleGuess s g)) = S (currentIndex s) ∧
  currentIndex (nextPolitician random (state_of (handleGuess s g))) =
    (if bool_decide (S (currentIndex s) < length (pool s))%nat
     then S (currentIndex s) else 0%nat).
Proof.
  intros Ha Hpol Hc.
  assert (Hcur : currentIndex (state_of (handleGuess s g)) = S (currentIndex s)).
  { unfold handleGuess. by rewrite Ha, Hpol, Hc. }
  split; [done|].
  destruct (handleGuess_frame s g) as (_ & _ & Hp & _).
  unfold nextPolitician. rewrite Hp, Hcur.
  apply lookup_lt_Some in Hpol.
  rewrite bool_decide_eq_false_2 by lia.
  case_bool_decide as Hwrap.
  - rewrite bool_decide_eq_false_2 by lia.
    by destruct (shuffle random (pool s) _).
  - rewrite bool_decide_eq_true_2 by lia. done.
Qed.

(** *** Turn advancement, pruning and filter change *)

(** What [nextPolitician] leaves alone. *)
Lemma nextPolitician_frame (s : State) :
  let s' := nextPolitician random s in
  deputes s' = deputes s ∧ senateurs s' = senateurs s ∧
  score s' = score s ∧ total s' = total s ∧ streak s' = streak s ∧
  bestStreak s' = bestStreak s ∧ mode s' = mode s ∧
  parties s' = parties s ∧ storage s' = storage s.
Proof.
  unfold nextPolitician. case_bool_decide; [done|].
  case_bool_decide; [by destruct (shuffle random (pool s) (draws s))|done].
Qed.

(** On a non-empty pool [nextPolitician] shows the record under the cursor
    and waits for a guess. *)
Lemma nextPolitician_shows (s : State) :
  pool s ≠ [] →
  let s' := nextPolitician random s in
  answered s' = false ∧
  (currentIndex s' < length (pool s'))%nat ∧
  shown (view s') = pool s' !! currentIndex s' ∧
  ((currentIndex s < length (pool s))%nat →
   pool s' = pool s ∧ currentIndex s' = currentIndex s).
Proof.
  intros Hne. unfold nextPolitician.
  assert (Hlen : (0 < length (pool s))%nat) by (destruct (pool s); simpl; [done|lia]).
  rewrite bool_decide_eq_false_2 by lia.
  case_bool_decide as Hwrap.
  - pose proof (shuffle_spec (pool s) (draws s)) as [Hp _].
    destruct (shuffle random (pool s) (draws s)) as [arr k]. simpl in *.
    apply Permutation_length in Hp.
    repeat split; try done; lia.
  - simpl. repeat split; try done; lia.
Qed.

Lemma photo_onerror_frame (s : State) :
  let s' := photo_onerror random s in
  deputes s' = deputes s ∧ senateurs s' = senateurs s ∧
  score s' = score s ∧ total s' = total s ∧ streak s' = streak s ∧
  bestStreak s' = bestStreak s ∧ mode s' = mode s ∧
  parties s' = parties s ∧ storage s' = storage s.
Proof.
  unfold photo_onerror. case_bool_decide; [done|].
  match goal with |- context [nextPolitician random ?t] =>
    pose proof (nextPolitician_frame t) as Hf end.
  exact Hf.
Qed.

(** The handler drops the record at the cursor and nothing else. *)
Lemma photo_onerror_pool (s : State) :
  pool (photo_onerror random s) ≡ₚ delete (currentIndex s) (pool s).
Proof.
  unfold photo_onerror. case_bool_decide; [done|].
  by rewrite nextPolitician_pool.
Qed.

Lemma setMode_pool (s : State) (newMode : string) :
  pool (setMode random s newMode)
    ≡ₚ pool_for newMode (deputes s) (senateurs s).
Proof.
  unfold setMode.
  pose proof (shuffle_spec (pool_for newMode (deputes s) (senateurs s))
                (draws s)) as [Hp _].
  destruct (shuffle random _ (draws s)) as [arr k]. simpl in Hp.
  by rewrite nextPolitician_pool.
Qed.

Lemma setMode_frame (s : State) (newMode : string) :
  let s' := setMode random s newMode in
  deputes s' = deputes s ∧ senateurs s' = senateurs s ∧
  score s' = 0 ∧ total s' = 0 ∧ streak s' = 0 ∧
  bestStreak s' = bestStreak s ∧ mode s' = newMode ∧
  parties s' = compute_parties (pool_for newMode (deputes s) (senateurs s)) ∧
  storage s' = storage s.
Proof.
  unfold setMode.
  destruct (shuffle random _ (draws s)) as [arr k].
  match goal with |- context [nextPolitician random ?t] =>
    pose proof (nextPolitician_frame t) as Hf end.
  exact Hf.
Qed.

(** The choice list is a function of the codes present, not of the records
    or their order. *)
Lemma compute_parties_codes (pool1 pool2 : list Politician) :
  map groupe_sigle pool1 ≡ₚ map groupe_sigle pool2 →
  compute_parties pool1 = compute_parties pool2.
Proof.
  intros Hp.
  destruct (compute_parties_spec pool1) as (S1 & N1 & E1).
  destruct (compute_parties_spec pool2) as (S2 & N2 & E2).
  apply (Sorted_unique_strong str_le); try done.
  - intros x1 x2 _ _. apply str_le_antisym.
  - apply NoDup_Permutation; try done.
    intros c. rewrite E1, E2.
    assert (Hc : ∀ pool : list Politician,
               (∃ p, p ∈ pool ∧ groupe_sigle p = Some c)
               ↔ Some c ∈ map groupe_sigle pool).
    { intros pool. rewrite list_elem_of_fmap.
      split; intros (p & H1 & H2); exists p; auto. }
    rewrite !Hc, Hp. done.
Qed.

(** C5. Filter change.  The new pool holds exactly the records of the
    selected collection: the deputies, the senators, or both for any other
    selection.  The choice list is sorted, free of duplicates and holds
    exactly the non-empty group codes of the new pool.  [score], [total]
    and [streak] are 0 and [bestStreak] is what it was.  A pool whose codes
    are RN, EPR, RN gets the choice list EPR, RN. *)
Theorem setMode_spec (s : State) (newMode : string) :
  let s' := setMode random s newMode in
  (newMode = "deputes" → pool s' ≡ₚ deputes s) ∧
  (newMode = "senateurs" → pool s' ≡ₚ senateurs s) ∧
  (newMode ≠ "deputes" → newMode ≠ "senateurs" →
     pool s' ≡ₚ deputes s ++ senateurs s) ∧
  Sorted str_le (parties s') ∧
  NoDup (parties s') ∧
  (∀ c, c ∈ parties s' ↔
        c ≠ "" ∧ ∃ p, p ∈ pool s' ∧ groupe_sigle p = Some c) ∧
  score s' = 0 ∧ total s' = 0 ∧ streak s' = 0 ∧
  bestStreak s' = bestStreak s ∧
  (map groupe_sigle (pool s') ≡ₚ [Some "RN"; Some "EPR"; Some "RN"] →
     parties s' = ["EPR"; "RN"]).
Proof.
  intros s'.
  pose proof (setMode_pool s newMode) as Hpool. fold s' in Hpool.
  destruct (setMode_frame s newMode)
    as (_ & _ & Hsc & Htot & Hst & Hbest & _ & Hpar & _).
  fold s' in Hsc, Htot, Hst, Hbest, Hpar.
  assert (Hpar' : parties s' = compute_parties (pool s')).
  { rewrite Hpar. symmetry. by apply compute_parties_Permutation. }
  destruct (compute_parties_spec (pool s')) as (HS & HN & HE).
  rewrite <- Hpar' in HS, HN, HE.
  split; [|split; [|split]].
  - intros ->. by rewrite Hpool.
  - intros ->. by rewrite Hpool.
  - intros H1 H2. rewrite Hpool. unfold pool_for.
    by rewrite !bool_decide_eq_false_2.
  - do 7 (split; [done|]).
    intros Hcodes. rewrite Hpar'.
    rewrite (compute_parties_codes (pool s')
               [mkPolitician "" "" (Some "RN") None None;
                mkPolitician "" "" (Some "EPR") None None;
                mkPolitician "" "" (Some "RN") None None]) by done.
    vm_compute. reflexivity.
Qed.

(** *** Runs *)

Lemma handleKeydown_cases (s : State) (key : string) :
  handleKeydown random s key = s ∨
  handleKeydown random s key = nextPolitician random s ∨
  ∃ g, handleKeydown random s key = state_of (handleGuess s g).
Proof.
  unfold handleKeydown.
  destruct (answered s && _); [auto|].
  destruct (negb (answered s) && _ && _); [|auto].
  destruct (parseInt key) as [|n]; [auto|].
  destruct (parties s !! Z.to_nat (n - 1)) as [g|]; eauto.
Qed.

(** Every event comes down to one of the four operations, or to nothing. *)
Lemma step_cases (s : State) (e : Event) :
  step random s e = s ∨
  step random s e = nextPolitician random s ∨
  (∃ g, step random s e = state_of (handleGuess s g)) ∨
  (∃ m, step random s e = setMode random s m) ∨
  step random s e = photo_onerror random s.
Proof.
  destruct e as [g| |key|m|]; simpl; eauto 6.
  - destruct (handleKeydown_cases s key) as [H|[H|H]]; auto.
  - destruct (shown (view s)); auto 6.
Qed.

(** A property the four operations keep holds all along a run. *)
Lemma run_invariant (P : State → Prop) :
  (∀ s, P s → P (nextPolitician random s)) →
  (∀ s g, P s → P (state_of (handleGuess s g))) →
  (∀ s m, P s → P (setMode random s m)) →
  (∀ s, P s → P (photo_onerror random s)) →
  ∀ es s, P s → P (run random s es).
Proof.
  intros Hnext Hguess Hmode Herr es.
  induction es as [|e es IH]; intros s Hs; [done|].
  unfold run. simpl. apply IH.
  destruct (step_cases s e) as [-> | [-> | [[g ->] | [[m ->] | ->]]]]; auto.
Qed.

Lemma run_app (s : State) (es1 es2 : list Event) :
  run random s (es1 ++ es2) = run random (run random s es1) es2.
Proof. unfold run. apply fold_left_app. Qed.

Lemma init_Ready (stored : option string) (dep1 sen1 dep2 sen2 : Fetched)
    (s0 : State) :
  init random stored dep1 sen1 dep2 sen2 = Ready s0 →
  s0 = setMode random
         (restored stored (loaded dep1 sen1 dep2 sen2).1
            (loaded dep1 sen1 dep2 sen2).2) "both".
Proof.
  unfold init. destruct (loaded dep1 sen1 dep2 sen2) as [deps sens].
  destruct (_ && _); [discriminate|]. by intros [= <-].
Qed.

(** *** Photos in the pool *)

Lemma photos_ok_run (s : State) (es : list Event) :
  photos_ok s → photos_ok (run random s es).
Proof.
  revert s. apply run_invariant; unfold photos_ok.
  - intros s (Hd & Hs & Hp).
    destruct (nextPolitician_frame s) as (-> & -> & _).
    by rewrite nextPolitician_pool.
  - intros s g (Hd & Hs & Hp).
    destruct (handleGuess_frame s g) as (-> & -> & -> & _). done.
  - intros s m (Hd & Hs & Hp).
    destruct (setMode_frame s m) as (-> & -> & _).
    rewrite setMode_pool. split; [done|]. split; [done|].
    unfold pool_for. repeat case_bool_decide; try done.
    by apply Forall_app.
  - intros s (Hd & Hs & Hp).
    destruct (photo_onerror_frame s) as (-> & -> & _).
    rewrite photo_onerror_pool. split; [done|]. split; [done|].
    by apply Forall_delete.
Qed.

(** C2, amended.  After a start-up in which both datasets were fetched at
    the first attempt, every record of the pool has a non-empty photo, and
    this stays so after every filter change, guess, advance and
    photo-failure pruning. *)
Theorem pool_photo_invariant (stored : option string)
    (depRes senRes : list Politician) (dep2 sen2 : Fetched)
    (s0 : State) (es : list Event) :
  init random stored (Json depRes) (Json senRes) dep2 sen2 = Ready s0 →
  Forall (λ p, truthy (photo p) = true) (pool (run random s0 es)).
Proof.
  intros Hinit. apply init_Ready in Hinit. subst s0.
  unfold loaded, load_both. cbn [fst snd].
  set (s1 := restored stored _ _).
  assert (H1 : photos_ok s1).
  { unfold photos_ok, s1, restored. cbn.
    split; [|split]; [| |constructor];
      apply Forall_forall; intros p Hp;
      apply list_elem_of_filter in Hp as [Hp _];
      by apply Is_true_true. }
  assert (H2 : photos_ok (setMode random s1 "both")).
  { revert H1. unfold photos_ok. intros (Hd & Hs & Hp).
    destruct (setMode_frame s1 "both") as (-> & -> & _).
    rewrite setMode_pool. split; [done|]. split; [done|].
    unfold pool_for. cbn. by apply Forall_app. }
  apply (photos_ok_run _ es H2).
Qed.

(** *** Best streak *)

Lemma handleGuess_best (s : State) (g : string) :
  let s' := state_of (handleGuess s g) in
  (streak s' = streak s ∧ bestStreak s' = bestStreak s) ∨
  (streak s' = streak s + 1 ∧
   bestStreak s' = if js_gt (streak s + 1) (bestStreak s)
                   then Num (streak s + 1) else bestStreak s) ∨
  (streak s' = 0 ∧ bestStreak s' = bestStreak s).
Proof.
  destruct (answered s) eqn:Ha.
  { left. unfold handleGuess. by rewrite Ha. }
  destruct (pool s !! currentIndex s) as [pol|] eqn:Hpol.
  - destruct (handleGuess_unanswered s g pol Ha Hpol)
      as (_ & _ & _ & Hst & Hbest & _).
    destruct (bool_decide (groupe_sigle pol = Some g)); auto.
  - left. unfold handleGuess. by rewrite Ha, Hpol.
Qed.

Lemma step_best (s : State) (e : Event) (b : Z) :
  best_is b s →
  best_is (Z.max b (streak (step random s e))) (step random s e).
Proof.
  unfold best_is. intros [Hb Hs].
  destruct (step_cases s e) as [-> | [-> | [[g ->] | [[m ->] | ->]]]].
  - split; [rewrite Hb; f_equal|]; lia.
  - destruct (nextPolitician_frame s) as (_ & _ & _ & _ & -> & -> & _).
    split; [rewrite Hb; f_equal|]; lia.
  - destruct (handleGuess_best s g) as [[-> ->] | [[-> ->] | [-> ->]]];
      rewrite Hb; unfold js_gt.
    + split; [f_equal|]; lia.
    + destruct (Z.ltb_spec b (streak s + 1)); split; try f_equal; lia.
    + split; [f_equal|]; lia.
  - destruct (setMode_frame s m) as (_ & _ & _ & _ & -> & -> & _).
    split; [rewrite Hb; f_equal|]; lia.
  - destruct (photo_onerror_frame s) as (_ & _ & _ & _ & -> & -> & _).
    split; [rewrite Hb; f_equal|]; lia.
Qed.

Lemma max_streak_ge (s : State) (es : list Event) :
  streak s <= max_streak random s es.
Proof. destruct es; simpl; lia. Qed.

Lemma run_best (es : list Event) (s : State) (b : Z) :
  best_is b s →
  best_is (Z.max b (max_streak random s es)) (run random s es).
Proof.
  revert s b. induction es as [|e es IH]; intros s b Hb.
  - simpl. destruct Hb as [Hb Hs]. unfold best_is, run. simpl.
    rewrite Hb. split; [f_equal|]; lia.
  - pose proof (step_best s e b Hb) as Hstep.
    pose proof (IH _ _ Hstep) as Hrun.
    pose proof (max_streak_ge (step random s e) es).
    destruct Hb as [_ Hs].
    unfold run in *. simpl.
    replace (Z.max b (Z.max (streak s) (max_streak random (step random s e) es)))
      with (Z.max (Z.max b (streak (step random s e)))
              (max_streak random (step random s e) es)) by lia.
    exact Hrun.
Qed.

(** C8, amended.  When the value restored at start-up is a non-negative
    integer [b0], [bestStreak] is at every point of a run the larger of
    [b0] and the largest streak seen so far, and no event makes it
    smaller. *)
Theorem bestStreak_invariant (stored : option string)
    (dep1 sen1 dep2 sen2 : Fetched) (s0 : State) (b0 : Z) (es : list Event) :
  init random stored dep1 sen1 dep2 sen2 = Ready s0 →
  parseInt (stored_or_zero stored) = Num b0 →
  0 <= b0 →
  bestStreak (run random s0 es) = Num (Z.max b0 (max_streak random s0 es)) ∧
  ∀ e, ∃ b b', bestStreak (run random s0 es) = Num b ∧
               bestStreak (run random s0 (es ++ [e])) = Num b' ∧
               b <= b'.
Proof.
  intros Hinit Hparse Hb0. apply init_Ready in Hinit.
  assert (H0 : best_is b0 s0).
  { subst s0. unfold best_is.
    match goal with |- context [setMode random ?t _] =>
      destruct (setMode_frame t "both") as (_ & _ & _ & _ & -> & -> & _) end.
    split; [exact Hparse | lia]. }
  pose proof (run_best es s0 b0 H0) as [Hbest Hs].
  split; [exact Hbest|].
  intros e. rewrite run_app.
  assert (H1 : best_is (Z.max b0 (max_streak random s0 es)) (run random s0 es))
    by done.
  destruct (step_best _ e _ H1) as [Hbest' _].
  eexists _, _. split; [exact Hbest|]. split; [exact Hbest'|]. lia.
Qed.

(** The stored value always reads back as [bestStreak]: it does at
    start-up, and a new best is written as soon as it is reached. *)
Lemma stored_reads_run (stored : option string)
    (dep1 sen1 dep2 sen2 : Fetched) (s0 : State) (es : list Event) :
  init random stored dep1 sen1 dep2 sen2 = Ready s0 →
  stored_reads (run random s0 es).
Proof.
  intros Hinit. apply init_Ready in Hinit.
  revert es s0 Hinit.
  assert (Hinv : ∀ es s, stored_reads s → stored_reads (run random s es)).
  { apply run_invariant; unfold stored_reads.
    - intros s Hs.
      by destruct (nextPolitician_frame s)
        as (_ & _ & _ & _ & _ & -> & _ & _ & ->).
    - intros s g Hs.
      destruct (answered s) eqn:Ha.
      { unfold handleGuess. by rewrite Ha. }
      destruct (pool s !! currentIndex s) as [pol|] eqn:Hpol.
      + destruct (handleGuess_unanswered s g pol Ha Hpol)
          as (_ & _ & _ & _ & -> & -> & _).
        destruct (bool_decide _); [|done].
        destruct (js_gt _ _); [|done].
        apply parseInt_String_of_Z.
      + unfold handleGuess. by rewrite Ha, Hpol.
    - intros s m Hs.
      by destruct (setMode_frame s m)
        as (_ & _ & _ & _ & _ & -> & _ & _ & ->).
    - intros s Hs.
      by destruct (photo_onerror_frame s)
        as (_ & _ & _ & _ & _ & -> & _ & _ & ->). }
  intros es s0 ->. apply Hinv. unfold stored_reads.
  match goal with |- context [setMode random ?t _] =>
    destruct (setMode_frame t "both")
      as (_ & _ & _ & _ & _ & -> & _ & _ & ->) end.
  reflexivity.
Qed.

(** *** Photo failure *)

(** While the shown candidate is the one under the cursor, which is the case
    from [nextPolitician] until a guess, the failure handler removes exactly
    that candidate, and shows the record now under the cursor if any record
    is left. *)
Lemma photo_onerror_unanswered (s : State) (pol : Politician) :
  shown (view s) = Some pol →
  pool s !! currentIndex s = Some pol →
  let s' := photo_onerror random s in
  pool s ≡ₚ pol :: pool s' ∧
  (pool s' ≠ [] →
     answered s' = false ∧
     is_Some (shown (view s')) ∧
     shown (view s') = pool s' !! currentIndex s').
Proof.
  intros Hshown Hcur s'. split.
  - unfold s'. rewrite photo_onerror_pool. by apply delete_Permutation.
  - intros Hne. unfold s', photo_onerror in *.
    case_bool_decide as Hempty.
    { exfalso. apply Hne. simpl. by apply length_zero_iff_nil. }
    match goal with |- context [nextPolitician random ?t] =>
      destruct (nextPolitician_shows t) as (Ha & Hlt & Hsh & _) end.
    { simpl. intros Hnil. by rewrite Hnil in Hempty. }
    split; [done|]. split; [|done].
    rewrite Hsh. by apply lookup_lt_is_Some_2.
Qed.

(** After a guess the cursor is one past the shown candidate: the handler
    then removes the record that follows it, if there is one, and the
    shown candidate stays in the pool. *)
Lemma photo_onerror_after_guess (s : State) (g : string)
    (pol : Politician) (c : string) :
  answered s = false →
  pool s !! currentIndex s = Some pol →
  groupe_sigle pol = Some c →
  let s1 := state_of (handleGuess s g) in
  pool (photo_onerror random s1) ≡ₚ delete (S (currentIndex s)) (pool s) ∧
  pol ∈ pool (photo_onerror random s1).
Proof.
  intros Ha Hpol Hc s1.
  assert (Hcur : currentIndex s1 = S (currentIndex s)).
  { unfold s1, handleGuess. by rewrite Ha, Hpol, Hc. }
  destruct (handleGuess_frame s g) as (_ & _ & Hp & _). fold s1 in Hp.
  assert (Hperm : pool (photo_onerror random s1)
                    ≡ₚ delete (S (currentIndex s)) (pool s)).
  { by rewrite photo_onerror_pool, Hcur, Hp. }
  split; [done|]. rewrite Hperm.
  apply list_elem_of_lookup. exists (currentIndex s).
  rewrite list_lookup_delete_lt by lia. done.
Qed.

End EngineFacts.

(** ** Concrete runs *)

Lemma random_zero_range : ∀ n, (0 <= random_zero n < 1)%Q.
Proof. intros n. unfold random_zero. split; [discriminate | reflexivity]. Defined.

Lemma random_thirds_range : ∀ n, (0 <= random_thirds n < 1)%Q.
Proof.
  intros n. unfold random_thirds, Qle, Qlt. simpl.
  pose proof (Nat.mod_upper_bound n 3 ltac:(lia)). split; lia.
Defined.

Example session_abc_pool :
  pool session_abc = [pol_b; pol_c; pol_a] ∧
  currentIndex session_abc = 0%nat ∧
  answered session_abc = false ∧
  parties session_abc = ["EPR"; "RN"] ∧
  shown (view session_abc) = Some pol_b.
Proof. vm_compute. repeat split. Qed.

Example shuffle_thirds :
  shuffle random_thirds [pol_a; pol_b; pol_c; pol_d; pol_e] 0
  = ([pol_d; pol_e; pol_c; pol_b; pol_a], 4%nat).
Proof. vm_compute. reflexivity. Qed.

Lemma shuffle_permutes_witness :
  (shuffle random_thirds [pol_a; pol_b; pol_c; pol_d; pol_e] 0).1
    ≡ₚ [pol_a; pol_b; pol_c; pol_d; pol_e].
Proof.
  destruct (shuffle_permutes random_thirds random_thirds_range) as [H _].
  destruct (H [pol_a; pol_b; pol_c; pol_d; pol_e] 0%nat) as [Hp _].
  exact Hp.
Defined.

Lemma handleGuess_idempotent_witness :
  handleGuess (state_of (handleGuess session_abc "EPR")) "RN"
  = Done (state_of (handleGuess session_abc "EPR")).
Proof.
  apply (handleGuess_idempotent (state_of (handleGuess session_abc "EPR")) "RN").
  vm_compute. reflexivity.
Defined.


(** The scenario of the specification: the candidate's group is SOC. *)
Example guess_SOC :
  let s := boot_state random_zero None [pol_s] [] in
  let right := state_of (handleGuess s "SOC") in
  let wrong := state_of (handleGuess s "LR") in
  (score right, streak right, r_correct <$> reveal (view right))
    = (1, 1, Some true) ∧
  (score wrong, streak wrong, reveal (view wrong))
    = (0, 0, Some (mkReveal false "Serge Colin"
                     "Socialistes et apparentés (SOC)")).
Proof. vm_compute. split; reflexivity. Qed.

(** C1, counterexample.  Right after loading, a guess moves the cursor
    from 0 to 1. *)
Lemma handleGuess_moves_cursor :
  answered session_abc = false ∧
  currentIndex (state_of (handleGuess session_abc "RN"))
    ≠ currentIndex session_abc.
Proof. vm_compute. split; [reflexivity | discriminate]. Qed.

Lemma handleGuess_advances_cursor_witness :
  currentIndex (state_of (handleGuess session_abc "RN"))
    = S (currentIndex session_abc) ∧
  currentIndex (nextPolitician random_zero
                  (state_of (handleGuess session_abc "RN")))
    = (if bool_decide (S (currentIndex session_abc)
                         < length (pool session_abc))%nat
       then S (currentIndex session_abc) else 0%nat).
Proof.
  apply (handleGuess_advances_cursor random_zero session_abc "RN" pol_b "EPR").
  - vm_compute. reflexivity.
  - vm_compute. reflexivity.
  - reflexivity.
Defined.

(** C2, counterexample.  Both datasets load at the first attempt; a senator
    with a photo and an empty group code is in the pool. *)
Lemma pool_holds_record_without_code :
  init random_zero None (Json [pol_a]) (Json [pol_d]) NetworkError NetworkError
    = Ready session_no_code ∧
  pool session_no_code = [pol_d; pol_a] ∧
  ¬ Forall (λ p, truthy (photo p) = true ∧ truthy (groupe_sigle p) = true)
      (pool session_no_code).
Proof.
  split; [vm_compute; reflexivity|].
  split; [vm_compute; reflexivity|].
  intros H. apply Forall_forall with (x := pol_d) in H.
  - destruct H as [_ H]. discriminate H.
  - vm_compute. left.
Qed.

(** The separate attempts of the [catch] branch store the parsed body as
    it is: a record without a photo then reaches the pool. *)
Example fallback_load_keeps_photoless :
  match init random_zero None HttpError (Json [pol_c]) NetworkError (Json [pol_e])
  with
  | Ready s => pool s = [pol_e] ∧ has_photo pol_e = false
  | NoData => False
  end.
Proof. vm_compute. split; reflexivity. Qed.

Lemma pool_photo_invariant_witness :
  Forall (λ p, truthy (photo p) = true)
    (pool (run random_zero session_abc
             [Guess "RN"; PhotoFailed; SelectMode "senateurs"; Advance])).
Proof.
  apply (pool_photo_invariant random_zero random_zero_range None
           [pol_a; pol_b] [pol_c] NetworkError NetworkError).
  vm_compute. reflexivity.
Defined.

Lemma setMode_spec_witness :
  pool (setMode random_zero session_abc "deputes") ≡ₚ deputes session_abc ∧
  bestStreak (setMode random_zero session_abc "deputes")
    = bestStreak session_abc.
Proof.
  destruct (setMode_spec random_zero random_zero_range session_abc "deputes")
    as (Hdep & _ & _ & _ & _ & _ & _ & _ & _ & Hbest & _).
  split; [apply Hdep; reflexivity | exact Hbest].
Defined.

(** The scenario of the specification: codes RN, EPR, RN give the choice
    list EPR, RN. *)
Example parties_RN_EPR_RN :
  map groupe_sigle [pol_a; pol_b; pol_c] = [Some "RN"; Some "EPR"; Some "RN"] ∧
  parties (setMode random_zero (restored None [pol_a; pol_b] [pol_c]) "both")
    = ["EPR"; "RN"].
Proof. vm_compute. split; reflexivity. Qed.

(** C6, the failing run.  The page shows B (the pool is B, C, A).  The
    player guesses, then B's photo fails: the handler removes C, which was
    never shown, and keeps B, which comes up again two turns later. *)
Theorem photo_failure_after_guess :
  shown (view session_abc) = Some pol_b ∧
  pool session_abc = [pol_b; pol_c; pol_a] ∧
  let s1 := run random_zero session_abc [Guess "RN"; PhotoFailed] in
  pool s1 = [pol_b; pol_a] ∧
  shown (view s1) = Some pol_a ∧
  shown (view (run random_zero s1 [Guess "RN"; Advance; Guess "RN"; Advance]))
    = Some pol_b.
Proof. vm_compute. repeat split. Qed.

(** The same failure before any guess removes B. *)
Example photo_failure_before_guess :
  pool (run random_zero session_abc [PhotoFailed]) = [pol_c; pol_a] ∧
  shown (view (run random_zero session_abc [PhotoFailed])) = Some pol_c.
Proof. vm_compute. split; reflexivity. Qed.

(** *** The stored best streak *)

Lemma stored_missing_is_zero :
  parseInt (stored_or_zero None) = Num 0 ∧
  parseInt (stored_or_zero (Some "")) = Num 0.
Proof. split; reflexivity. Qed.

(** C7, the failing input.  With a stored value that is not a number the
    start-up read gives [NaN], not 0; a correct guess then raises the
    streak to 1 and leaves both [bestStreak] and the stored value as they
    were.  A stored negative number is read as it is. *)
Theorem corrupt_stored_best_is_NaN :
  parseInt (stored_or_zero (Some "abc")) = NaN ∧
  bestStreak session_corrupt = NaN ∧
  (let s1 := run random_zero session_corrupt [Guess "EPR"] in
   streak s1 = 1 ∧ bestStreak s1 = NaN ∧ storage s1 = Some "abc") ∧
  parseInt (stored_or_zero (Some "-3")) = Num (-3).
Proof. vm_compute. repeat split. Qed.

(** C8, counterexample.  With 5 in storage, [bestStreak] is 5 right after
    loading and after a first correct guess, while the largest streak seen
    is 0, then 1. *)
Lemma bestStreak_above_seen_streaks :
  bestStreak session_stored_5 = Num 5 ∧
  max_streak random_zero session_stored_5 [] = 0 ∧
  bestStreak (run random_zero session_stored_5 [Guess "EPR"]) = Num 5 ∧
  max_streak random_zero session_stored_5 [Guess "EPR"] = 1 ∧
  bestStreak session_stored_5
    ≠ Num (max_streak random_zero session_stored_5 []).
Proof. vm_compute. repeat split. discriminate. Qed.

Lemma bestStreak_invariant_witness :
  bestStreak (run random_zero session_stored_5 [Guess "EPR"; Advance; Guess "RN"])
  = Num (Z.max 5 (max_streak random_zero session_stored_5
                    [Guess "EPR"; Advance; Guess "RN"])).
Proof.
  apply (bestStreak_invariant random_zero (Some "5")
           (Json [pol_a; pol_b]) (Json [pol_c]) NetworkError NetworkError
           session_stored_5 5).
  - vm_compute. reflexivity.
  - reflexivity.
  - lia.
Defined.

(** * Further properties of the game *)

Section Game.

Variable random : nat -> Q.

Hypothesis random_range : ∀ n, (0 <= random n < 1)%Q.

(** ** Start-up *)

(** X1. Start-up ends in the "no data" screen exactly when nothing was
    loaded: either both datasets arrived at the first attempt and no record
    has a photo, or the first attempt failed and neither of the separate
    second attempts brought a record. *)
Theorem init_NoData_iff (stored : option string)
    (dep1 sen1 dep2 sen2 : Fetched) :
  init random stored dep1 sen1 dep2 sen2 = NoData ↔
  match dep1, sen1 with
  | Json depRes, Json senRes =>
      Forall (λ p, has_photo p = false) (depRes ++ senRes)
  | _, _ =>
      (∀ body, dep2 = Json body → body = []) ∧
      (∀ body, sen2 = Json body → body = [])
  end.
Proof.
  assert (Hfilter : ∀ l : list Politician,
             length (filter (λ p, has_photo p) l) = 0%nat
             ↔ Forall (λ p, has_photo p = false) l).
  { intros l. rewrite length_zero_iff_nil. induction l as [|p l IH].
    - split; [constructor | done].
    - rewrite filter_cons, Forall_cons. destruct (has_photo p) eqn:Hp.
      + rewrite decide_True by done. split; [done | intros [? _]; done].
      + rewrite decide_False by (by intros ?). rewrite IH. tauto. }
  assert (Halone : ∀ r, length (load_alone r) = 0%nat
                        ↔ ∀ body, r = Json body → body = []).
  { intros r. rewrite length_zero_iff_nil.
    destruct r; simpl; split; try done.
    - intros -> ? [= <-]. done.
    - intros H. by apply H. }
  assert (Hinit : init random stored dep1 sen1 dep2 sen2 = NoData ↔
            length (loaded dep1 sen1 dep2 sen2).1 = 0%nat ∧
            length (loaded dep1 sen1 dep2 sen2).2 = 0%nat).
  { unfold init. destruct (loaded dep1 sen1 dep2 sen2) as [deps sens]. simpl.
    do 2 case_bool_decide; simpl; split; try done; intros [? ?]; done. }
  rewrite Hinit. unfold loaded, load_both.
  destruct dep1, sen1; simpl; rewrite ?Halone; try done.
  rewrite Forall_app, !Hfilter. done.
Qed.

(** X2. Partial data.  When the first, combined attempt fails, what it
    brought is dropped, and the game starts on whatever the separate
    attempts bring: if the deputies then load and the senators do not, the
    session holds the deputies' body as it came and no senator. *)
Theorem init_partial_data (stored : option string)
    (dep1 sen1 sen2 : Fetched) (body : list Politician) :
  load_both dep1 sen1 = None →
  body ≠ [] →
  (∀ b, sen2 ≠ Json b) →
  ∃ s, init random stored dep1 sen1 (Json body) sen2 = Ready s ∧
       deputes s = body ∧ senateurs s = [] ∧ pool s ≡ₚ body ∧
       parties s = compute_parties body.
Proof.
  intros Hfirst Hbody Hsen.
  assert (Hloaded : loaded dep1 sen1 (Json body) sen2 = (body, [])).
  { unfold loaded. rewrite Hfirst. simpl. f_equal.
    destruct sen2; try done. by destruct (Hsen body0). }
  unfold init. rewrite Hloaded.
  rewrite bool_decide_eq_false_2
    by (intros E; by apply length_zero_iff_nil in E).
  eexists. split; [reflexivity|].
  pose proof (setMode_frame random (restored stored body []) "both")
    as (Hd & Hs & _ & _ & _ & _ & _ & Hp & _).
  pose proof (setMode_pool random random_range (restored stored body []) "both")
    as Hpool.
  unfold pool_for in Hp, Hpool. simpl in Hp, Hpool.
  rewrite app_nil_r in Hp, Hpool. done.
Qed.

(** What [nextPolitician] writes on a non-empty pool with the cursor
    inside: only [answered] and the page. *)
Lemma nextPolitician_inside (s : State) :
  (currentIndex s < length (pool s))%nat →
  nextPolitician random s =
    {| deputes := deputes s; senateurs := senateurs s;
       pool := pool s; currentIndex := currentIndex s;
       score := score s; total := total s; streak := streak s;
       bestStreak := bestStreak s; mode := mode s; answered := false;
       parties := parties s; storage := storage s; draws := draws s;
       view :=
         {| shown := pool s !! currentIndex s;
            badge := pool s !! currentIndex s ≫= badge_of (mode s);
            reveal := None; nextBtn := false;
            buttons := renderPartyButtons (pool s) (parties s);
            board := board (view s) |} |}.
Proof.
  intros Hlt. unfold nextPolitician.
  rewrite bool_decide_eq_false_2 by lia.
  rewrite bool_decide_eq_false_2 by lia. reflexivity.
Qed.

(** What it writes when the cursor has reached the end of a non-empty
    pool: the pool is shuffled and the cursor goes back to 0. *)
Lemma nextPolitician_wrap (s : State) :
  pool s ≠ [] →
  (length (pool s) <= currentIndex s)%nat →
  nextPolitician random s =
    let arr := (shuffle random (pool s) (draws s)).1 in
    {| deputes := deputes s; senateurs := senateurs s;
       pool := arr; currentIndex := 0%nat;
       score := score s; total := total s; streak := streak s;
       bestStreak := bestStreak s; mode := mode s; answered := false;
       parties := parties s; storage := storage s;
       draws := (shuffle random (pool s) (draws s)).2;
       view :=
         {| shown := arr !! 0%nat;
            badge := arr !! 0%nat ≫= badge_of (mode s);
            reveal := None; nextBtn := false;
            buttons := renderPartyButtons arr (parties s);
            board := board (view s) |} |}.
Proof.
  intros Hne Hwrap. unfold nextPolitician.
  rewrite bool_decide_eq_false_2
    by (intros E; by apply length_zero_iff_nil in E).
  rewrite bool_decide_eq_true_2 by done.
  by destruct (shuffle random (pool s) (draws s)).
Qed.

Lemma nextPolitician_page (s : State) :
  pool s ≠ [] →
  reveal (view (nextPolitician random s)) = None ∧
  nextBtn (view (nextPolitician random s)) = false ∧
  board (view (nextPolitician random s)) = board (view s).
Proof.
  intros Hne. unfold nextPolitician.
  rewrite bool_decide_eq_false_2
    by (intros E; by apply length_zero_iff_nil in E).
  case_bool_decide; [by destruct (shuffle random (pool s) (draws s))|done].
Qed.

(** X3. A session that starts is ready for a first guess: the pool is not
    empty and holds the loaded deputies and senators, the cursor is on its
    first record, which is the one shown, no answer is in, the counters are
    0, the reveal and the next button are hidden, and the board shows 0, 0,
    0 and the best streak read from storage. *)
Theorem init_Ready_fresh (stored : option string)
    (dep1 sen1 dep2 sen2 : Fetched) (s : State) :
  init random stored dep1 sen1 dep2 sen2 = Ready s →
  pool s ≠ [] ∧ pool s ≡ₚ deputes s ++ senateurs s ∧
  currentIndex s = 0%nat ∧ answered s = false ∧ mode s = "both" ∧
  score s = 0 ∧ total s = 0 ∧ streak s = 0 ∧
  bestStreak s = parseInt (stored_or_zero stored) ∧ storage s = stored ∧
  is_Some (shown (view s)) ∧ shown (view s) = pool s !! 0%nat ∧
  reveal (view s) = None ∧ nextBtn (view s) = false ∧
  board (view s) = Some (mkBoard 0 0 0 (bestStreak s)).
Proof.
  unfold init. destruct (loaded dep1 sen1 dep2 sen2) as [deps sens] eqn:Hl.
  destruct (_ && _) eqn:Hempty; [discriminate|]. intros [= <-].
  set (t := restored stored deps sens).
  pose proof (setMode_pool random random_range t "both") as Hpool.
  destruct (setMode_frame random t "both")
    as (Hd & Hs & Hsc & Htot & Hst & Hbest & Hmode & _ & Hsto).
  unfold pool_for in Hpool. simpl in Hpool.
  assert (Hne : (deps ++ sens)%list ≠ []).
  { intros E. apply app_eq_nil in E as [-> ->]. discriminate Hempty. }
  assert (Hne' : pool (setMode random t "both") ≠ []).
  { intros E. rewrite E in Hpool. symmetry in Hpool.
    by apply Permutation_nil_r in Hpool. }
  split; [done|]. split; [by rewrite Hd, Hs|].
  revert Hne'. unfold setMode.
  destruct (shuffle random (pool_for "both" (deputes t) (senateurs t))
              (draws t)) as [arr k] eqn:Hsh.
  set (u := {| deputes := _ |}).
  intros Hne'.
  assert (Hu : pool u ≠ []).
  { intros E. apply Hne'. unfold nextPolitician.
    rewrite bool_decide_eq_true_2; [done|]. by rewrite E. }
  assert (Hlt : (currentIndex u < length (pool u))%nat).
  { simpl. destruct arr; [done|simpl; lia]. }
  rewrite (nextPolitician_inside u Hlt). simpl.
  repeat split; try done.
  by apply lookup_lt_is_Some_2.
Qed.

(** ** Invariants of a run *)

Lemma handleGuess_counters (s : State) (g : string) :
  let s' := state_of (handleGuess s g) in
  (score s' = score s ∧ total s' = total s ∧ streak s' = streak s) ∨
  (score s' = score s ∧ total s' = total s + 1 ∧ streak s' = streak s) ∨
  (score s' = score s + 1 ∧ total s' = total s + 1 ∧
   streak s' = streak s + 1) ∨
  (score s' = score s ∧ total s' = total s + 1 ∧ streak s' = 0).
Proof.
  destruct (answered s) eqn:Ha.
  { left. unfold handleGuess. by rewrite Ha. }
  destruct (pool s !! currentIndex s) as [pol|] eqn:Hpol.
  - destruct (handleGuess_unanswered s g pol Ha Hpol)
      as (_ & Htot & Hsc & Hst & _).
    destruct (bool_decide (groupe_sigle pol = Some g)); auto 6.
  - right; left. unfold handleGuess. by rewrite Ha, Hpol.
Qed.

(** X4. All along a session the counters stay ordered:
    [0 <= streak <= score <= total]. *)
Theorem counters_ok_run (stored : option string)
    (dep1 sen1 dep2 sen2 : Fetched) (s0 : State) (es : list Event) :
  init random stored dep1 sen1 dep2 sen2 = Ready s0 →
  0 <= streak (run random s0 es) ∧
  streak (run random s0 es) <= score (run random s0 es) ∧
  score (run random s0 es) <= total (run random s0 es).
Proof.
  intros Hinit. apply init_Ready in Hinit.
  assert (Hinv : ∀ es s, counters_ok s → counters_ok (run random s es)).
  { apply run_invariant; unfold counters_ok.
    - intros s Hs.
      by destruct (nextPolitician_frame random s)
        as (_ & _ & -> & -> & -> & _).
    - intros s g Hs.
      destruct (handleGuess_counters s g)
        as [(-> & -> & ->) | [(-> & -> & ->) | [(-> & -> & ->) | (-> & -> & ->)]]];
        lia.
    - intros s m Hs.
      destruct (setMode_frame random s m) as (_ & _ & -> & -> & -> & _). lia.
    - intros s Hs.
      by destruct (photo_onerror_frame random s)
        as (_ & _ & -> & -> & -> & _). }
  apply (Hinv es s0). subst s0. unfold counters_ok.
  match goal with |- context [setMode random ?t _] =>
    destruct (setMode_frame random t "both")
      as (_ & _ & -> & -> & -> & _) end.
  lia.
Qed.

(** [splice(i, 1)] past the end removes nothing. *)
Lemma delete_out_of_range (l : list Politician) (i : nat) :
  (length l <= i)%nat → delete i l = l.
Proof.
  intros Hi. rewrite delete_take_drop.
  rewrite take_ge by lia. rewrite drop_ge by lia. apply app_nil_r.
Qed.

Lemma nextPolitician_cursor_ok (s : State) :
  (pool s = [] → currentIndex s = 0%nat) →
  cursor_ok (nextPolitician random s).
Proof.
  intros Hempty. destruct (decide (pool s = [])) as [E|Hne].
  - unfold nextPolitician. rewrite bool_decide_eq_true_2 by (by rewrite E).
    unfold cursor_ok. rewrite E, (Hempty E). simpl. split; [lia|done].
  - destruct (nextPolitician_shows random random_range s Hne)
      as (Ha & Hlt & Hsh & _).
    unfold cursor_ok. split; [lia|]. done.
Qed.

Lemma cursor_ok_run (es : list Event) (s : State) :
  cursor_ok s → cursor_ok (run random s es).
Proof.
  revert es s. apply run_invariant.
  - intros s [Hle _]. apply nextPolitician_cursor_ok.
    intros E. rewrite E in Hle. simpl in Hle. lia.
  - intros s g [Hle Hcur].
    pose proof (handleGuess_answers s g) as Hans.
    destruct (handleGuess_frame s g) as (_ & _ & Hp & _).
    unfold cursor_ok. rewrite Hp, Hans. split; [|done].
    unfold handleGuess. destruct (answered s); [done|].
    destruct (pool s !! currentIndex s) as [pol|] eqn:Hpol; [|done].
    apply lookup_lt_Some in Hpol.
    destruct (groupe_sigle pol); simpl; lia.
  - intros s m _. unfold setMode.
    destruct (shuffle random _ (draws s)) as [arr k].
    apply nextPolitician_cursor_ok. done.
  - intros s [Hle _]. unfold photo_onerror.
    case_bool_decide as Hempty.
    + apply length_zero_iff_nil in Hempty.
      unfold cursor_ok. simpl. rewrite Hempty. simpl. split; [|done].
      destruct (decide (currentIndex s < length (pool s))%nat) as [Hlt|Hge].
      * pose proof (length_delete (pool s) (currentIndex s)
                      (lookup_lt_is_Some_2 _ _ Hlt)) as Hlen.
        rewrite Hempty in Hlen. simpl in Hlen. lia.
      * rewrite delete_out_of_range in Hempty by lia. rewrite Hempty in Hle.
        simpl in Hle. lia.
    + apply nextPolitician_cursor_ok. simpl.
      intros E. by rewrite E in Hempty.
Qed.

(** X5. All along a session the cursor is inside the pool or just past its
    end, and whenever a guess is awaited on a non-empty pool the cursor is
    on a record and that record is the one shown: the guess is judged
    against the candidate on screen. *)
Theorem cursor_on_shown_candidate (stored : option string)
    (dep1 sen1 dep2 sen2 : Fetched) (s0 : State) (es : list Event) :
  init random stored dep1 sen1 dep2 sen2 = Ready s0 →
  (currentIndex (run random s0 es) <= length (pool (run random s0 es)))%nat ∧
  (answered (run random s0 es) = false → pool (run random s0 es) ≠ [] →
     ∃ pol, pool (run random s0 es) !! currentIndex (run random s0 es)
              = Some pol ∧
            shown (view (run random s0 es)) = Some pol).
Proof.
  intros Hinit. apply init_Ready in Hinit.
  assert (H0 : cursor_ok s0).
  { subst s0. unfold setMode.
    destruct (shuffle random _ _) as [arr k].
    apply nextPolitician_cursor_ok. done. }
  destruct (cursor_ok_run es s0 H0) as [Hle Hcur].
  split; [done|]. intros Ha Hne.
  destruct (Hcur Ha Hne) as [Hlt Hsh].
  destruct (lookup_lt_is_Some_2 _ _ Hlt) as [pol Hpol].
  exists pol. by rewrite Hsh.
Qed.

(** Records neither enter the datasets nor the pool from outside: the
    datasets never change, and what holds of every loaded record holds of
    every pool record. *)
Lemma records_run (P : Politician → Prop) (es : list Event) (s : State) :
  Forall P (deputes s) → Forall P (senateurs s) → Forall P (pool s) →
  deputes (run random s es) = deputes s ∧
  senateurs (run random s es) = senateurs s ∧
  Forall P (pool (run random s es)).
Proof.
  intros Hd Hs Hp.
  apply (run_invariant random
           (λ t, deputes t = deputes s ∧ senateurs t = senateurs s ∧
                 Forall P (pool t))); [| | | |done].
  - intros t (Hdt & Hst & Hpt).
    destruct (nextPolitician_frame random t) as (-> & -> & _).
    by rewrite nextPolitician_pool.
  - intros t g (Hdt & Hst & Hpt).
    by destruct (handleGuess_frame t g) as (-> & -> & -> & _).
  - intros t m (Hdt & Hst & Hpt).
    destruct (setMode_frame random t m) as (-> & -> & _).
    rewrite setMode_pool by done. split; [done|]. split; [done|].
    rewrite Hdt, Hst. unfold pool_for. repeat case_bool_decide; try done.
    by apply Forall_app.
  - intros t (Hdt & Hst & Hpt).
    destruct (photo_onerror_frame random t) as (-> & -> & _).
    rewrite photo_onerror_pool by done. split; [done|]. split; [done|].
    by apply Forall_delete.
Qed.

(** A guess on an unanswered candidate that has a group code completes,
    and moves the cursor by one. *)
Lemma handleGuess_completes (s : State) (g : string) (pol : Politician) :
  answered s = false →
  pool s !! currentIndex s = Some pol →
  has_code pol →
  ∃ s', handleGuess s g = Done s' ∧
        currentIndex s' = S (currentIndex s) ∧
        nextBtn (view s') = true.
Proof.
  intros Ha Hpol [c Hc]. unfold handleGuess. rewrite Ha, Hpol, Hc.
  eexists. split; [reflexivity|]. done.
Qed.

(** X6. With datasets in which every record has a group code, no guess
    ever throws as long as the pool is not empty: the handler runs to its
    end, whatever was clicked or typed before. *)
Theorem guess_never_throws (stored : option string)
    (dep1 sen1 dep2 sen2 : Fetched) (s0 : State) (es : list Event)
    (g : string) :
  init random stored dep1 sen1 dep2 sen2 = Ready s0 →
  Forall has_code (deputes s0) →
  Forall has_code (senateurs s0) →
  pool (run random s0 es) ≠ [] →
  ∃ s', handleGuess (run random s0 es) g = Done s'.
Proof.
  intros Hinit Hd Hs Hne. apply init_Ready in Hinit.
  assert (Hp0 : Forall has_code (pool s0)).
  { set (t := restored _ _ _) in Hinit.
    pose proof (setMode_pool random random_range t "both") as Hpool.
    destruct (setMode_frame random t "both") as (Hdt & Hst & _).
    rewrite <- Hinit in Hpool, Hdt, Hst. rewrite Hpool.
    unfold pool_for. rewrite !bool_decide_eq_false_2 by discriminate.
    rewrite <- Hdt, <- Hst. by apply Forall_app. }
  assert (H0 : cursor_ok s0).
  { subst s0. unfold setMode. destruct (shuffle random _ _) as [arr k].
    apply nextPolitician_cursor_ok. done. }
  destruct (records_run has_code es s0 Hd Hs Hp0) as (_ & _ & Hp).
  destruct (cursor_ok_run es s0 H0) as [_ Hcur].
  destruct (answered (run random s0 es)) eqn:Ha.
  { exists (run random s0 es). unfold handleGuess. by rewrite Ha. }
  destruct (Hcur eq_refl Hne) as [Hlt _].
  destruct (lookup_lt_is_Some_2 _ _ Hlt) as [pol Hpol].
  assert (Hcode : has_code pol).
  { eapply Forall_forall; [exact Hp|].
    apply list_elem_of_lookup. eauto. }
  destruct (handleGuess_completes _ g pol Ha Hpol Hcode) as (s' & Hs' & _).
  eauto.
Qed.


(** X8. Advancing twice is advancing once: once a candidate is shown and
    awaits a guess, another advance changes nothing. *)
Theorem nextPolitician_idempotent (s : State) :
  nextPolitician random (nextPolitician random s) = nextPolitician random s.
Proof.
  destruct (decide (pool s = [])) as [E|Hne].
  { assert (Hs : nextPolitician random s = s).
    { unfold nextPolitician. by rewrite bool_decide_eq_true_2 by (by rewrite E). }
    by rewrite !Hs. }
  assert (Hlen : (0 < length (pool s))%nat).
  { destruct (pool s); [done | simpl; lia]. }
  destruct (decide (currentIndex s < length (pool s))%nat) as [Hlt|Hge].
  - rewrite (nextPolitician_inside s Hlt).
    rewrite nextPolitician_inside by (simpl; lia). reflexivity.
  - rewrite (nextPolitician_wrap s Hne) by lia.
    pose proof (shuffle_spec random random_range (pool s) (draws s))
      as [Hperm _].
    apply Permutation_length in Hperm.
    rewrite nextPolitician_inside by (simpl; lia). reflexivity.
Qed.

(** ** A pass through the pool *)

(** One guess and one advance, away from the end of the pool. *)
Lemma guess_then_advance (s : State) (g : string) (pol : Politician) :
  answered s = false →
  pool s !! currentIndex s = Some pol →
  has_code pol →
  (S (currentIndex s) < length (pool s))%nat →
  let s' := run random s [Guess g; Advance] in
  pool s' = pool s ∧ currentIndex s' = S (currentIndex s) ∧
  answered s' = false ∧
  shown (view s') = pool s !! S (currentIndex s) ∧
  total s' = total s + 1 ∧
  score s' = score s
             + (if bool_decide (groupe_sigle pol = Some g) then 1 else 0) ∧
  draws s' = draws s.
Proof.
  intros Ha Hpol Hcode Hlt. unfold run. simpl.
  destruct (handleGuess_completes s g pol Ha Hpol Hcode) as (s1 & Hs1 & Hcur & _).
  destruct (handleGuess_unanswered s g pol Ha Hpol)
    as (_ & Htot & Hsc & _).
  destruct (handleGuess_frame s g) as (_ & _ & Hp & _ & _ & Hdr & _).
  rewrite Hs1 in *. simpl in *.
  rewrite nextPolitician_inside by (rewrite Hp, Hcur; lia).
  simpl. rewrite Hp, Hcur, Htot, Hsc, Hdr.
  repeat split; try done. by destruct (bool_decide _); lia.
Qed.

(** X9. A pass shows the records in pool order.  From a candidate that
    awaits a guess, [n] rounds of guess and advance that stay inside the
    pool leave the pool and its order as they are (no reshuffle, no draw),
    move the cursor by [n], show the record [n] places further, count [n]
    answers, and add to the score the number of guesses that named the
    group of the record they faced. *)
Theorem pass_in_pool_order (guesses : list string) (s : State) :
  answered s = false →
  shown (view s) = pool s !! currentIndex s →
  Forall has_code (pool s) →
  (currentIndex s + length guesses < length (pool s))%nat →
  let s' := run random s (play guesses) in
  pool s' = pool s ∧
  currentIndex s' = (currentIndex s + length guesses)%nat ∧
  answered s' = false ∧
  shown (view s') = pool s !! (currentIndex s + length guesses)%nat ∧
  total s' = total s + Z.of_nat (length guesses) ∧
  score s' = score s + hits (drop (currentIndex s) (pool s)) guesses ∧
  draws s' = draws s.
Proof.
  revert s. induction guesses as [|g gs IH]; intros s Ha Hsh Hcodes Hlt.
  - simpl. rewrite Nat.add_0_r. repeat split; try done; try lia.
    destruct (drop _ _); simpl; lia.
  - simpl in Hlt.
    destruct (lookup_lt_is_Some_2 (pool s) (currentIndex s)) as [pol Hpol];
      [lia|].
    assert (Hcode : has_code pol).
    { eapply Forall_forall; [exact Hcodes|].
      apply list_elem_of_lookup. eauto. }
    destruct (guess_then_advance s g pol Ha Hpol Hcode ltac:(lia))
      as (Hp & Hcur & Ha1 & Hsh1 & Htot & Hsc & Hdr).
    set (s1 := run random s [Guess g; Advance]) in *.
    assert (Hrun : run random s (play (g :: gs)) = run random s1 (play gs))
      by reflexivity.
    cbv zeta. rewrite Hrun.
    destruct (IH s1) as (Hp' & Hcur' & Ha' & Hsh' & Htot' & Hsc' & Hdr').
    + done.
    + by rewrite Hsh1, Hp, Hcur.
    + by rewrite Hp.
    + rewrite Hp, Hcur. lia.
    + rewrite Hp', Hcur', Ha', Hsh', Htot', Hsc', Hdr'.
      rewrite Hp, Hcur, Htot, Hsc, Hdr.
      rewrite (drop_S _ _ _ Hpol). simpl length. simpl hits.
      replace (S (currentIndex s) + length gs)%nat
        with (currentIndex s + S (length gs))%nat by lia.
      repeat split; try done; lia.
Qed.

(** ** Photos that fail *)

(** One failure before any guess, away from the end of the pool. *)
Lemma photo_failure_step (s : State) :
  answered s = false →
  shown (view s) = pool s !! currentIndex s →
  (S (currentIndex s) < length (pool s))%nat →
  let s' := step random s PhotoFailed in
  pool s' = delete (currentIndex s) (pool s) ∧
  currentIndex s' = currentIndex s ∧
  answered s' = false ∧
  shown (view s') = pool s !! S (currentIndex s) ∧
  score s' = score s ∧ total s' = total s ∧ streak s' = streak s.
Proof.
  intros Ha Hsh Hlt. simpl.
  destruct (lookup_lt_is_Some_2 (pool s) (currentIndex s)) as [pol Hpol];
    [lia|].
  rewrite Hsh, Hpol. unfold photo_onerror.
  assert (Hlen : length (delete (currentIndex s) (pool s))
                 = (length (pool s) - 1)%nat).
  { apply length_delete. eauto. }
  rewrite bool_decide_eq_false_2 by lia.
  rewrite bool_decide_eq_false_2 by lia.
  rewrite nextPolitician_inside by (simpl; lia). simpl.
  rewrite list_lookup_delete_ge by lia. done.
Qed.

(** X10. Failures cascade.  While no guess is in, [n] photo failures in a
    row that stay inside the pool remove exactly the [n] candidates that
    were shown one after the other, those at the cursor and after, and
    leave the cursor and the counters where they were; the record that
    followed them is on screen, awaiting a guess. *)
Theorem photo_failures_cascade (n : nat) (s : State) :
  answered s = false →
  shown (view s) = pool s !! currentIndex s →
  (currentIndex s + n < length (pool s))%nat →
  let s' := run random s (replicate n PhotoFailed) in
  pool s' = (take (currentIndex s) (pool s)
             ++ drop (currentIndex s + n) (pool s))%list ∧
  currentIndex s' = currentIndex s ∧
  answered s' = false ∧
  shown (view s') = pool s !! (currentIndex s + n)%nat ∧
  score s' = score s ∧ total s' = total s ∧ streak s' = streak s.
Proof.
  revert s. induction n as [|n IH]; intros s Ha Hsh Hlt.
  - simpl. rewrite Nat.add_0_r, take_drop. done.
  - destruct (photo_failure_step s Ha Hsh ltac:(lia))
      as (Hp & Hcur & Ha1 & Hsh1 & Hsc & Htot & Hst).
    set (s1 := step random s PhotoFailed) in *.
    assert (Hrun : run random s (replicate (S n) PhotoFailed)
                   = run random s1 (replicate n PhotoFailed)) by reflexivity.
    cbv zeta. rewrite Hrun.
    assert (Hlen : length (pool s1) = (length (pool s) - 1)%nat).
    { rewrite Hp. apply length_delete. apply lookup_lt_is_Some_2. lia. }
    destruct (IH s1) as (Hp' & Hcur' & Ha' & Hsh' & Hsc' & Htot' & Hst').
    + done.
    + rewrite Hsh1, Hp, Hcur. rewrite list_lookup_delete_ge by lia. done.
    + rewrite Hlen, Hcur. lia.
    + rewrite Hp', Hcur', Ha', Hsh', Hsc', Htot', Hst'.
      rewrite Hcur, Hsc, Htot, Hst, Hp.
      rewrite list_lookup_delete_ge by lia.
      replace (S (currentIndex s + n)) with (currentIndex s + S n)%nat by lia.
      repeat split; try done.
      rewrite delete_take_drop.
      assert (Htl : length (take (currentIndex s) (pool s)) = currentIndex s).
      { rewrite length_take. lia. }
      rewrite take_app_length' by done.
      rewrite drop_app_add' by done.
      rewrite drop_drop. do 2 f_equal. lia.
Qed.

(** X11. A filter change brings every pruned record back.  Whatever
    happened before (guesses, failures, other filter changes), the two
    datasets are as they were loaded, and a filter change rebuilds the pool
    from them: all deputies, all senators, or both. *)
Theorem filter_change_restores_pool (s : State) (es : list Event)
    (newMode : string) :
  deputes (run random s es) = deputes s ∧
  senateurs (run random s es) = senateurs s ∧
  pool (setMode random (run random s es) newMode)
    ≡ₚ pool_for newMode (deputes s) (senateurs s).
Proof.
  assert (H : deputes (run random s es) = deputes s ∧
              senateurs (run random s es) = senateurs s).
  { apply (run_invariant random
             (λ t, deputes t = deputes s ∧ senateurs t = senateurs s));
      [| | | |done].
    - intros t [Hd Hs].
      by destruct (nextPolitician_frame random t) as (-> & -> & _).
    - intros t g [Hd Hs].
      by destruct (handleGuess_frame t g) as (-> & -> & _).
    - intros t m [Hd Hs].
      by destruct (setMode_frame random t m) as (-> & -> & _).
    - intros t [Hd Hs].
      by destruct (photo_onerror_frame random t) as (-> & -> & _). }
  destruct H as [Hd Hs]. split; [done|]. split; [done|].
  rewrite setMode_pool by done. by rewrite Hd, Hs.
Qed.

(** X12. Selecting a chamber of which no record is loaded empties the pool
    and the choice list and resets the counters, but leaves the page as it
    was: the photo, the buttons and the reveal of the previous candidate
    stay, and [answered] is not reset.  A click on one of those buttons,
    if no answer was in, throws after counting an answer. *)
Theorem setMode_empty_selection (s : State) (newMode g : string) :
  pool_for newMode (deputes s) (senateurs s) = [] →
  let s' := setMode random s newMode in
  pool s' = [] ∧ parties s' = [] ∧ currentIndex s' = 0%nat ∧
  answered s' = answered s ∧ draws s' = draws s ∧
  shown (view s') = shown (view s) ∧
  buttons (view s') = buttons (view s) ∧
  reveal (view s') = reveal (view s) ∧
  nextBtn (view s') = nextBtn (view s) ∧
  board (view s') = Some (mkBoard 0 0 0 (bestStreak s)) ∧
  (answered s = false →
     ∃ s'', handleGuess s' g = Threw s'' ∧ total s'' = 1 ∧ score s'' = 0 ∧
            pool s'' = []).
Proof.
  intros Hempty. unfold setMode. rewrite Hempty.
  change (shuffle random [] (draws s)) with (@nil Politician, draws s).
  cbv beta iota zeta.
  unfold nextPolitician at 1. simpl.
  change (compute_parties []) with (@nil string).
  do 10 (split; [reflexivity|]).
  intros Ha. unfold handleGuess. simpl. rewrite Ha. simpl.
  eexists. split; [reflexivity|]. done.
Qed.

(** ** Keyboard *)

Lemma handleKeydown_guess (s : State) (key : string) (n : Z) :
  answered s = false →
  String.leb "1" key && String.leb key "9" = true →
  parseInt key = Num n →
  handleKeydown random s key =
    match parties s !! Z.to_nat (n - 1) with
    | Some sigle => state_of (handleGuess s sigle)
    | None => s
    end.
Proof.
  intros Ha Hkey Hn. unfold handleKeydown. rewrite Ha. simpl andb.
  rewrite Hkey, Hn. reflexivity.
Qed.

(** X13. While a guess is awaited, the key of digit [d], from 1 to 9, is
    a guess of the [d]-th code of the choice list, and does nothing when
    the list has fewer than [d] codes.  Once the answer is in, a digit key
    does nothing. *)
Theorem keydown_digit (s : State) (d : Z) :
  1 <= d <= 9 →
  (answered s = false →
     handleKeydown random s (String_of_Z d) =
       match parties s !! Z.to_nat (d - 1) with
       | Some sigle => state_of (handleGuess s sigle)
       | None => s
       end) ∧
  (answered s = true → handleKeydown random s (String_of_Z d) = s).
Proof.
  intros Hd.
  assert (Hcases : d = 1 ∨ d = 2 ∨ d = 3 ∨ d = 4 ∨ d = 5 ∨ d = 6 ∨ d = 7
                   ∨ d = 8 ∨ d = 9) by lia.
  split.
  - intros Ha.
    destruct Hcases as [-> | [-> | [-> | [-> | [-> | [-> | [-> | [-> | ->]]]]]]]];
      by apply handleKeydown_guess.
  - intros Ha. unfold handleKeydown. rewrite Ha. simpl andb.
    destruct Hcases as [-> | [-> | [-> | [-> | [-> | [-> | [-> | [-> | ->]]]]]]]];
      reflexivity.
Qed.

(** X14. Enter and Space advance once the answer is in and do nothing
    while a guess is awaited; a key that is neither of them nor between
    "1" and "9" never does anything. *)
Theorem keydown_confirm (s : State) :
  (answered s = true →
     handleKeydown random s "Enter" = nextPolitician random s ∧
     handleKeydown random s " " = nextPolitician random s) ∧
  (answered s = false →
     handleKeydown random s "Enter" = s ∧ handleKeydown random s " " = s) ∧
  (∀ key, key ≠ "Enter" → key ≠ " " →
          String.leb "1" key && String.leb key "9" = false →
          handleKeydown random s key = s).
Proof.
  split; [|split].
  - intros Ha. unfold handleKeydown. rewrite Ha. done.
  - intros Ha. unfold handleKeydown. rewrite Ha. done.
  - intros key H1 H2 Hkey. unfold handleKeydown.
    rewrite !bool_decide_eq_false_2 by done.
    rewrite andb_false_r. rewrite <- andb_assoc, Hkey, andb_false_r. done.
Qed.

(** ** The stored best streak across reloads *)

(** X15. Reloading the page restores the best streak.  At any point of a
    session, a new start-up that finds the storage as the session left it
    begins with the [bestStreak] the session had. *)
Theorem reload_restores_best (stored : option string)
    (dep1 sen1 dep2 sen2 : Fetched) (s0 : State) (es : list Event)
    (random' : nat -> Q) (dep1' sen1' dep2' sen2' : Fetched) (s1 : State) :
  init random stored dep1 sen1 dep2 sen2 = Ready s0 →
  init random' (storage (run random s0 es)) dep1' sen1' dep2' sen2'
    = Ready s1 →
  bestStreak s1 = bestStreak (run random s0 es).
Proof.
  intros Hinit Hinit'.
  pose proof (stored_reads_run random stored dep1 sen1 dep2 sen2 s0 es Hinit)
    as Hreads.
  apply init_Ready in Hinit'. subst s1.
  match goal with |- context [setMode random' ?t _] =>
    destruct (setMode_frame random' t "both")
      as (_ & _ & _ & _ & _ & -> & _) end.
  exact Hreads.
Qed.

(** ** Guess buttons *)

(** X16. A guess on a candidate disables every button and keeps their
    labels; the button of the candidate's group becomes [Correct], the
    button that was guessed, if it is another one, becomes [Wrong], and
    every other button becomes [Dimmed]. *)
Theorem guess_marks_buttons (s : State) (g : string) (pol : Politician) :
  answered s = false →
  pool s !! currentIndex s = Some pol →
  let s' := state_of (handleGuess s g) in
  length (buttons (view s')) = length (buttons (view s)) ∧
  ∀ i b, buttons (view s) !! i = Some b →
    ∃ b', buttons (view s') !! i = Some b' ∧
          b_sigle b' = b_sigle b ∧ b_cfg b' = b_cfg b ∧
          b_disabled b' = true ∧
          (Some (b_sigle b) = groupe_sigle pol → b_class b' = Correct) ∧
          (Some (b_sigle b) ≠ groupe_sigle pol → b_sigle b = g →
             b_class b' = Wrong) ∧
          (Some (b_sigle b) ≠ groupe_sigle pol → b_sigle b ≠ g →
             b_class b' = Dimmed).
Proof.
  intros Ha Hpol s'.
  assert (Hb : buttons (view s')
               = map (mark_button pol g
                        (bool_decide (Some g = groupe_sigle pol)))
                   (buttons (view s))).
  { unfold s', handleGuess. rewrite Ha, Hpol.
    by destruct (groupe_sigle pol). }
  rewrite Hb. split; [apply length_map|].
  intros i b Hi. exists (mark_button pol g
                           (bool_decide (Some g = groupe_sigle pol)) b).
  split; [by rewrite list_lookup_fmap, Hi|].
  unfold mark_button. simpl. do 3 (split; [done|]).
  split; [|split].
  - intros Hc. rewrite bool_decide_eq_true_2 by done. done.
  - intros Hc Hg. rewrite bool_decide_eq_false_2 by done.
    rewrite (bool_decide_eq_true_2 (b_sigle b = g)) by done.
    rewrite bool_decide_eq_false_2 by (by rewrite <- Hg). done.
  - intros Hc Hg. rewrite bool_decide_eq_false_2 by done.
    rewrite (bool_decide_eq_false_2 (b_sigle b = g)) by done. done.
Qed.

End Game.

(** ** The colour hash *)

Lemma ToInt32_congruent (z : Z) : ∃ q, ToInt32 z = z + 2 ^ 32 * q.
Proof.
  exists (- ((z + 2 ^ 31) / 2 ^ 32)). unfold ToInt32.
  rewrite Z.mod_eq by lia. lia.
Qed.

Lemma ToInt32_small (z : Z) : - 2 ^ 31 <= z < 2 ^ 31 → ToInt32 z = z.
Proof.
  intros Hz. unfold ToInt32. rewrite Z.mod_small by lia. lia.
Qed.

Lemma hash_step_congruent (h : Z) (c : ascii) :
  ∃ q, hash_step h c = 31 * h + charCode c + 2 ^ 32 * q.
Proof.
  unfold hash_step, shl5. rewrite Z.shiftl_mul_pow2 by lia.
  destruct (ToInt32_congruent h) as [q1 ->].
  destruct (ToInt32_congruent ((h + 2 ^ 32 * q1) * 2 ^ 5)) as [q2 ->].
  exists (32 * q1 + q2). lia.
Qed.

Lemma hash_step_small (h : Z) (c : ascii) :
  0 <= h < 2 ^ 26 → hash_step h c = 31 * h + charCode c.
Proof.
  intros Hh. unfold hash_step, shl5.
  rewrite (ToInt32_small h) by lia.
  rewrite Z.shiftl_mul_pow2 by lia.
  rewrite ToInt32_small by lia. lia.
Qed.

Lemma hash_from_congruent (str : string) (h h' : Z) :
  (∃ q, h = h' + 2 ^ 32 * q) →
  ∃ q, hash_from h str = poly31_from h' str + 2 ^ 32 * q.
Proof.
  revert h h'. induction str as [|c str IH]; intros h h' [q Hq];
    cbn [hash_from poly31_from].
  - eauto.
  - apply IH. destruct (hash_step_congruent h c) as [q' ->].
    exists (31 * q + q'). lia.
Qed.

Lemma hash_from_no_wrap (str : string) (h : Z) :
  0 <= h →
  (h + 9) * 31 ^ Z.of_nat (String.length str) <= 31 * 2 ^ 26 →
  hash_from h str = poly31_from h str.
Proof.
  revert h. induction str as [|c str IH]; intros h Hh Hbound; [done|].
  simpl String.length in Hbound. rewrite Nat2Z.inj_succ in Hbound.
  rewrite Z.pow_succ_r in Hbound by lia.
  pose proof (charCode_range c) as Hc.
  assert (Hpow : 1 <= 31 ^ Z.of_nat (String.length str))
    by (apply Z.pow_le_mono_r with (b := 0) (c := Z.of_nat _); lia).
  set (P := 31 ^ Z.of_nat (String.length str)) in *. clearbody P.
  assert (Hsmall : h + 9 <= 2 ^ 26) by nia.
  cbn [hash_from poly31_from]. rewrite hash_step_small by lia.
  apply IH; [lia|].
  assert (H : (31 * h + charCode c + 9) * P <= 31 * (h + 9) * P)
    by (apply Z.mul_le_mono_nonneg_r; lia).
  lia.
Qed.

(** X17. The colour hash is the base-31 polynomial of the character codes
    up to a multiple of 2^32: [(hash << 5) - hash] is [31 * hash] but for
    the wrap of the shift.  On a code of at most 5 characters nothing
    wraps and the hash is that polynomial itself. *)
Theorem hash_is_poly31 (str : string) :
  hash_of str mod 2 ^ 32 = poly31 str mod 2 ^ 32 ∧
  ((String.length str <= 5)%nat → hash_of str = poly31 str).
Proof.
  split.
  - destruct (hash_from_congruent str 0 0) as [q Hq]; [exists 0; lia|].
    unfold hash_of, poly31. rewrite Hq.
    rewrite (Z.mul_comm (2 ^ 32) q). apply Z.mod_add. lia.
  - intros Hlen. apply hash_from_no_wrap; [lia|].
    assert (H : 31 ^ Z.of_nat (String.length str) <= 31 ^ 5)
      by (apply Z.pow_le_mono_r; lia).
    lia.
Qed.

Lemma string_length_app (pre suf : string) :
  String.length (pre +:+ suf)
  = (String.length pre + String.length suf)%nat.
Proof.
  induction pre as [|c pre IH]; [reflexivity|]. simpl. by rewrite IH.
Qed.

(** X18. The hash of a string of up to 2^21 characters is below 2^53 in
    absolute value, and so is every intermediate value of the loop, the
    hash of a prefix: the additions and subtractions of [autoColor] are
    exact on JavaScript numbers. *)
Theorem hash_below_2_53 (pre suf : string) :
  Z.of_nat (String.length (pre +:+ suf)) <= 2 ^ 21 →
  Z.abs (hash_of pre) < 2 ^ 53 ∧ Z.abs (hash_of (pre +:+ suf)) < 2 ^ 53.
Proof.
  intros Hlen.
  pose proof (string_length_app pre suf) as Happ.
  pose proof (hash_from_bound pre 0) as H1.
  pose proof (hash_from_bound (pre +:+ suf) 0) as H2.
  unfold hash_of. rewrite Happ in *. split; lia.
Qed.

(** ** Orders the shuffle can produce *)

Lemma dyadic_draw_numerator (j i : nat) :
  (j <= i)%nat →
  let m := (Z.of_nat j * 2 ^ 27 + Z.of_nat i) / (Z.of_nat i + 1) in
  Z.of_nat j * 2 ^ 27 <= m * (Z.of_nat i + 1) ∧
  m * (Z.of_nat i + 1) <= Z.of_nat j * 2 ^ 27 + Z.of_nat i ∧
  0 <= m.
Proof.
  intros Hj m.
  pose proof (Z.div_mod (Z.of_nat j * 2 ^ 27 + Z.of_nat i) (Z.of_nat i + 1)
                ltac:(lia)) as Hdm.
  pose proof (Z.mod_pos_bound (Z.of_nat j * 2 ^ 27 + Z.of_nat i)
                (Z.of_nat i + 1) ltac:(lia)) as Hmod.
  fold m in Hdm.
  assert (H0 : 0 <= m) by (apply Z.div_pos; lia).
  lia.
Qed.

Lemma dyadic_draw_range (j i : nat) :
  (j <= i)%nat → Z.of_nat i < 2 ^ 26 →
  (0 <= dyadic_draw j i < 1)%Q ∧
  ∃ m, 0 <= m < 2 ^ 27 ∧ dyadic_draw j i = m # (2 ^ 27).
Proof.
  intros Hj Hi.
  destruct (dyadic_draw_numerator j i Hj) as (Hlo & Hhi & H0).
  set (m := (Z.of_nat j * 2 ^ 27 + Z.of_nat i) / (Z.of_nat i + 1)) in *.
  assert (Hm : m < 2 ^ 27) by nia.
  split.
  - unfold dyadic_draw. fold m. unfold Qle, Qlt. simpl. lia.
  - exists m. split; [lia | reflexivity].
Qed.

Lemma rand_index_dyadic_draw (j i : nat) :
  (j <= i)%nat → Z.of_nat i < 2 ^ 26 →
  rand_index (dyadic_draw j i) i = j.
Proof.
  intros Hj Hi.
  destruct (dyadic_draw_numerator j i Hj) as (Hlo & Hhi & H0).
  unfold rand_index, dyadic_draw.
  set (m := (Z.of_nat j * 2 ^ 27 + Z.of_nat i) / (Z.of_nat i + 1)) in *.
  unfold Qmult, inject_Z, Qfloor. cbn [Qnum Qden]. rewrite Pos.mul_1_r.
  assert (Hdiv : m * (Z.of_nat i + 1) / Z.pos (2 ^ 27) = Z.of_nat j).
  { symmetry. apply Z.div_unique with (r := m * (Z.of_nat i + 1)
                                             - Z.of_nat j * 2 ^ 27); lia. }
  rewrite Hdiv. lia.
Qed.

Lemma take_swap (arr : list Politician) (n i j : nat) :
  (i < n)%nat → (j < n)%nat → (n <= length arr)%nat →
  take n (swap arr i j) ≡ₚ take n arr ∧ drop n (swap arr i j) = drop n arr.
Proof.
  intros Hi Hj Hn. unfold swap.
  destruct (lookup_lt_is_Some_2 arr i ltac:(lia)) as [ai Hai].
  destruct (lookup_lt_is_Some_2 arr j ltac:(lia)) as [aj Haj].
  rewrite Hai, Haj. split.
  - rewrite !take_insert_lt by lia.
    apply Permutation_insert_swap; by rewrite lookup_take_lt.
  - rewrite !drop_insert_lt by lia. done.
Qed.

Lemma swap_lookup_l (arr : list Politician) (i j : nat) (x : Politician) :
  (i < length arr)%nat → arr !! j = Some x → swap arr i j !! i = Some x.
Proof.
  intros Hi Hj. unfold swap.
  destruct (lookup_lt_is_Some_2 arr i Hi) as [ai Hai].
  rewrite Hj, Hai.
  destruct (decide (i = j)) as [->|Hne].
  - rewrite list_lookup_insert_eq by (rewrite length_insert; lia). congruence.
  - rewrite list_lookup_insert_ne by done.
    by rewrite list_lookup_insert_eq by lia.
Qed.

Lemma shuffle_from_reaches (i : nat) :
  ∀ arr target : list Politician,
    (i < length arr)%nat → length target = length arr →
    take (S i) arr ≡ₚ take (S i) target →
    drop (S i) arr = drop (S i) target →
    ∃ js : list nat,
      (∀ m j, js !! m = Some j → (j <= i - m)%nat) ∧
      ∀ (random : nat -> Q) (k : nat),
        (∀ m j, js !! m = Some j →
                rand_index (random (k + m)%nat) (i - m) = j) →
        (shuffle_from random i arr k).1 = target.
Proof.
  induction i as [|i IH]; intros arr target Hi Hlen Htake Hdrop.
  - exists []. split; [intros m j; by rewrite lookup_nil|].
    intros random k _. simpl.
    destruct arr as [|a arr]; [simpl in Hi; lia|].
    destruct target as [|t target]; [discriminate|].
    simpl in *. apply Permutation_singleton_inj in Htake.
    rewrite !drop_0 in Hdrop. congruence.
  - destruct (lookup_lt_is_Some_2 target (S i)) as [x Hx]; [lia|].
    assert (Hin : x ∈ take (S (S i)) arr).
    { rewrite Htake. apply list_elem_of_lookup. exists (S i).
      rewrite lookup_take_lt by lia. done. }
    apply list_elem_of_lookup in Hin as [j Hj].
    apply lookup_take_Some in Hj as [Hj Hjlt].
    set (arr' := swap arr (S i) j).
    assert (Hlen' : length arr' = length arr) by apply swap_length.
    destruct (take_swap arr (S (S i)) (S i) j) as [Hperm Hdr]; [lia..|].
    fold arr' in Hperm, Hdr.
    assert (Hx' : arr' !! S i = Some x) by (by apply swap_lookup_l).
    destruct (IH arr' target) as (js & Hbound & Hjs).
    + lia.
    + lia.
    + apply (Permutation_app_inv_r [x]).
      rewrite <- (take_S_r arr' (S i) x Hx'), <- (take_S_r target (S i) x Hx).
      by rewrite Hperm.
    + rewrite (drop_S arr' x (S i) Hx'), (drop_S target x (S i) Hx).
      by rewrite Hdr, Hdrop.
    + exists (j :: js). split.
      * intros [|m] j'; simpl.
        -- intros [= <-]. lia.
        -- intros Hm. apply Hbound in Hm. lia.
      * intros random k Hrand. simpl.
        pose proof (Hrand 0%nat j eq_refl) as H0.
        rewrite Nat.add_0_r, Nat.sub_0_r in H0. rewrite H0. fold arr'.
        apply Hjs. intros m j' Hm.
        replace (S k + m)%nat with (k + S m)%nat by lia.
        apply (Hrand (S m) j'). done.
Qed.

(** X19. The shuffle can produce every ordering of an array of at most
    2^26 records: for each permutation there is a sequence of draws on
    which [shuffle] returns exactly that permutation.  Every draw of the
    sequence is a multiple of 2^-27 in [0, 1), a value [Math.random()] may
    return, whose product with any [i + 1 <= 2^26] the script computes
    without rounding. *)
Theorem shuffle_reaches_every_order (arr target : list Politician) :
  Z.of_nat (length arr) <= 2 ^ 26 →
  arr ≡ₚ target →
  ∃ random : nat -> Q,
    (∀ n, ∃ m, 0 <= m < 2 ^ 27 ∧ random n = m # (2 ^ 27)) ∧
    (∀ n, (0 <= random n < 1)%Q) ∧
    (shuffle random arr 0).1 = target.
Proof.
  intros Hsize Hperm.
  destruct arr as [|a arr].
  { apply Permutation_nil_l in Hperm. subst target.
    exists (fun _ => 0 # (2 ^ 27)). split; [|split; [|done]].
    - intros n. exists 0. split; [lia | reflexivity].
    - intros n. split; [discriminate | reflexivity]. }
  pose proof (Permutation_length Hperm) as Hlen.
  set (l := a :: arr) in *.
  set (i := (length l - 1)%nat).
  assert (Hi : (i < length l)%nat) by (unfold i, l; simpl; lia).
  destruct (shuffle_from_reaches i l target) as (js & Hbound & Hjs).
  - done.
  - done.
  - rewrite !take_ge by lia. done.
  - rewrite !drop_ge by lia. done.
  - assert (Hdraw : ∀ n,
              (0 <= random_of js i n < 1)%Q ∧
              ∃ m, 0 <= m < 2 ^ 27 ∧ random_of js i n = m # (2 ^ 27)).
    { intros n. unfold random_of.
      destruct (js !! n) as [j|] eqn:Hj.
      - apply dyadic_draw_range; [by apply Hbound in Hj | lia].
      - split; [split; [discriminate | reflexivity]|].
        exists 0. split; [lia | reflexivity]. }
    exists (random_of js i). split; [|split].
    + intros n. apply Hdraw.
    + intros n. apply Hdraw.
    + unfold shuffle. fold i. apply Hjs.
      intros m j Hj. simpl. unfold random_of. rewrite Hj.
      apply rand_index_dyadic_draw; [by apply Hbound in Hj | lia].
Qed.

(** ** The choices on screen *)

Section Offer.

Variable random : nat -> Q.

Hypothesis random_range : ∀ n, (0 <= random n < 1)%Q.

Lemma nextPolitician_offer (s : State) :
  codes_offered s →
  (pool s = [] → buttons_fresh s) →
  codes_offered (nextPolitician random s) ∧
  buttons_fresh (nextPolitician random s).
Proof.
  intros Hcodes Hempty.
  destruct (decide (pool s = [])) as [E|Hne].
  { assert (Hs : nextPolitician random s = s).
    { unfold nextPolitician.
      by rewrite bool_decide_eq_true_2 by (by rewrite E). }
    rewrite Hs. auto. }
  split.
  - intros p c Hp Hc Hnz.
    destruct (nextPolitician_frame random s)
      as (_ & _ & _ & _ & _ & _ & _ & -> & _).
    rewrite nextPolitician_pool in Hp by done. eauto.
  - intros _ _.
    destruct (decide (currentIndex s < length (pool s))%nat) as [Hlt|Hge].
    + by rewrite (nextPolitician_inside random s Hlt).
    + by rewrite (nextPolitician_wrap random s Hne) by lia.
Qed.

Lemma offer_run (es : list Event) (s : State) :
  codes_offered s ∧ buttons_fresh s →
  codes_offered (run random s es) ∧ buttons_fresh (run random s es).
Proof.
  revert es s.
  apply (run_invariant random (λ t, codes_offered t ∧ buttons_fresh t)).
  - intros s [Hc Hb]. apply nextPolitician_offer; auto.
  - intros s g [Hc Hb].
    pose proof (handleGuess_answers s g) as Hans.
    destruct (handleGuess_frame s g) as (_ & _ & Hp & _ & Hpar & _).
    split.
    + intros p c. rewrite Hp, Hpar. apply Hc.
    + intros Ha. by rewrite Hans in Ha.
  - intros s m _. unfold setMode.
    pose proof (shuffle_spec random random_range
                  (pool_for m (deputes s) (senateurs s)) (draws s))
      as [Hperm _].
    destruct (shuffle random _ (draws s)) as [arr k]. simpl in Hperm.
    apply nextPolitician_offer.
    + intros p c Hp Hc Hnz. simpl in *.
      apply compute_parties_spec. split; [done|].
      exists p. by rewrite <- Hperm.
    + intros E _ Hne. by simpl in *.
  - intros s [Hc Hb]. unfold photo_onerror.
    case_bool_decide as Hempty.
    + apply length_zero_iff_nil in Hempty. split.
      * intros p c Hp. simpl in Hp. rewrite Hempty in Hp. by inversion Hp.
      * intros _ Hne. by simpl in Hne.
    + apply nextPolitician_offer.
      * intros p c Hp. simpl in *.
        apply list_elem_of_delete_inv in Hp. by apply Hc.
      * simpl. intros E. by rewrite E in Hempty.
Qed.

(** X20. The right answer is on screen.  All along a session, whenever a
    guess is awaited on a non-empty pool, the buttons are those of the
    choice list, in its order, enabled and unmarked, and the group code
    of the candidate under the cursor, when it is not empty, is the label
    of one of them. *)
Theorem answer_is_offered (stored : option string)
    (dep1 sen1 dep2 sen2 : Fetched) (s0 : State) (es : list Event) :
  init random stored dep1 sen1 dep2 sen2 = Ready s0 →
  answered (run random s0 es) = false →
  pool (run random s0 es) ≠ [] →
  map b_sigle (buttons (view (run random s0 es))) = parties (run random s0 es) ∧
  Forall (λ b, b_class b = Plain ∧ b_disabled b = false)
    (buttons (view (run random s0 es))) ∧
  ∀ pol c, pool (run random s0 es) !! currentIndex (run random s0 es)
             = Some pol →
           groupe_sigle pol = Some c → c ≠ "" →
           ∃ i b, buttons (view (run random s0 es)) !! i = Some b ∧
                  b_sigle b = c.
Proof.
  intros Hinit Ha Hne. apply init_Ready in Hinit.
  assert (H0 : codes_offered s0 ∧ buttons_fresh s0).
  { subst s0. set (t := restored _ _ _). unfold setMode.
    pose proof (shuffle_spec random random_range
                  (pool_for "both" (deputes t) (senateurs t)) (draws t))
      as [Hperm _].
    destruct (shuffle random _ (draws t)) as [arr k]. simpl in Hperm.
    apply nextPolitician_offer.
    - intros p c Hp Hc Hnz. simpl in *.
      apply compute_parties_spec. split; [done|].
      exists p. by rewrite <- Hperm.
    - intros E _ Hne'. by simpl in *. }
  destruct (offer_run es s0 H0) as [Hcodes Hfresh].
  specialize (Hfresh Ha Hne).
  assert (Hsig : map b_sigle (buttons (view (run random s0 es)))
                 = parties (run random s0 es)).
  { rewrite Hfresh. unfold renderPartyButtons.
    rewrite map_map. simpl. apply map_id. }
  split; [done|]. split.
  - rewrite Hfresh. unfold renderPartyButtons.
    apply Forall_forall. intros b Hb.
    apply list_elem_of_fmap in Hb as (sg & -> & _). done.
  - intros pol c Hpol Hc Hnz.
    assert (Hin : c ∈ parties (run random s0 es)).
    { eapply Hcodes; [|done..]. apply list_elem_of_lookup. eauto. }
    rewrite <- Hsig in Hin.
    apply list_elem_of_fmap in Hin as (b & -> & Hb).
    apply list_elem_of_lookup in Hb as [i Hi]. eauto.
Qed.

End Offer.

(** ** Concrete runs *)

Example session_deputes_only_pool :
  pool session_deputes_only = [pol_b; pol_a] ∧
  senateurs session_deputes_only = [] ∧
  pool session_no_group = [pol_n].
Proof. vm_compute. repeat split. Qed.

Lemma session_abc_codes : Forall has_code (pool session_abc).
Proof.
  change (pool session_abc) with [pol_b; pol_c; pol_a].
  repeat constructor; by eexists.
Defined.

Lemma init_partial_data_witness :
  ∃ s, init random_zero None HttpError NetworkError (Json [pol_a; pol_b]) BadJson
         = Ready s ∧
       deputes s = [pol_a; pol_b] ∧ senateurs s = [] ∧
       pool s ≡ₚ [pol_a; pol_b] ∧
       parties s = compute_parties [pol_a; pol_b].
Proof.
  apply (init_partial_data random_zero random_zero_range None
           HttpError NetworkError BadJson [pol_a; pol_b]).
  - reflexivity.
  - discriminate.
  - intros b. discriminate.
Defined.

Lemma init_Ready_fresh_witness :
  pool session_abc ≠ [] ∧
  pool session_abc ≡ₚ deputes session_abc ++ senateurs session_abc.
Proof.
  destruct (init_Ready_fresh random_zero random_zero_range None
              (Json [pol_a; pol_b]) (Json [pol_c]) NetworkError NetworkError
              session_abc) as (H1 & H2 & _).
  - vm_compute. reflexivity.
  - split; assumption.
Defined.

Lemma counters_ok_run_witness :
  0 <= streak (run random_zero session_abc [Guess "EPR"; Advance; Guess "XX"]) ∧
  streak (run random_zero session_abc [Guess "EPR"; Advance; Guess "XX"])
    <= score (run random_zero session_abc [Guess "EPR"; Advance; Guess "XX"]) ∧
  score (run random_zero session_abc [Guess "EPR"; Advance; Guess "XX"])
    <= total (run random_zero session_abc [Guess "EPR"; Advance; Guess "XX"]).
Proof.
  apply (counters_ok_run random_zero None
           (Json [pol_a; pol_b]) (Json [pol_c]) NetworkError NetworkError).
  vm_compute. reflexivity.
Defined.

Lemma cursor_on_shown_candidate_witness :
  (currentIndex (run random_zero session_abc [Guess "EPR"; PhotoFailed])
   <= length (pool (run random_zero session_abc [Guess "EPR"; PhotoFailed])))%nat.
Proof.
  destruct (cursor_on_shown_candidate random_zero random_zero_range None
              (Json [pol_a; pol_b]) (Json [pol_c]) NetworkError NetworkError
              session_abc [Guess "EPR"; PhotoFailed]) as [H _].
  - vm_compute. reflexivity.
  - exact H.
Defined.

Lemma guess_never_throws_witness :
  ∃ s', handleGuess (run random_zero session_abc [Guess "EPR"; Advance]) "RN"
        = Done s'.
Proof.
  apply (guess_never_throws random_zero random_zero_range None
           (Json [pol_a; pol_b]) (Json [pol_c]) NetworkError NetworkError).
  - vm_compute. reflexivity.
  - change (deputes session_abc) with [pol_a; pol_b].
    repeat constructor; by eexists.
  - change (senateurs session_abc) with [pol_c].
    repeat constructor; by eexists.
  - vm_compute. discriminate.
Defined.


Lemma nextPolitician_idempotent_witness :
  nextPolitician random_thirds
    (nextPolitician random_thirds (state_of (handleGuess session_no_code "RN")))
  = nextPolitician random_thirds (state_of (handleGuess session_no_code "RN")).
Proof.
  apply (nextPolitician_idempotent random_thirds random_thirds_range).
Defined.

Lemma pass_in_pool_order_witness :
  shown (view (run random_zero session_abc (play ["EPR"; "LR"])))
    = pool session_abc !! 2%nat ∧
  score (run random_zero session_abc (play ["EPR"; "LR"]))
    = score session_abc + hits (drop 0 (pool session_abc)) ["EPR"; "LR"].
Proof.
  destruct (pass_in_pool_order random_zero ["EPR"; "LR"] session_abc)
    as (_ & _ & _ & Hshown & _ & Hscore & _).
  - vm_compute. reflexivity.
  - vm_compute. reflexivity.
  - exact session_abc_codes.
  - vm_compute. lia.
  - split; [exact Hshown | exact Hscore].
Defined.

Lemma photo_failures_cascade_witness :
  pool (run random_zero session_abc (replicate 2 PhotoFailed))
  = (take 0 (pool session_abc) ++ drop 2 (pool session_abc))%list.
Proof.
  destruct (photo_failures_cascade random_zero 2 session_abc) as (H & _).
  - vm_compute. reflexivity.
  - vm_compute. reflexivity.
  - vm_compute. lia.
  - exact H.
Defined.

Lemma filter_change_restores_pool_witness :
  pool (setMode random_zero
          (run random_zero session_abc [PhotoFailed; PhotoFailed]) "both")
    ≡ₚ pool_for "both" (deputes session_abc) (senateurs session_abc).
Proof.
  apply (filter_change_restores_pool random_zero random_zero_range
           session_abc [PhotoFailed; PhotoFailed] "both").
Defined.

Lemma setMode_empty_selection_witness :
  pool (setMode random_zero session_deputes_only "senateurs") = [] ∧
  shown (view (setMode random_zero session_deputes_only "senateurs"))
    = shown (view session_deputes_only).
Proof.
  destruct (setMode_empty_selection random_zero session_deputes_only
              "senateurs" "RN") as (H1 & _ & _ & _ & _ & H2 & _).
  - vm_compute. reflexivity.
  - split; [exact H1 | exact H2].
Defined.

Lemma keydown_digit_witness :
  handleKeydown random_zero session_abc (String_of_Z 2) =
    match parties session_abc !! Z.to_nat (2 - 1) with
    | Some sigle => state_of (handleGuess session_abc sigle)
    | None => session_abc
    end.
Proof.
  destruct (keydown_digit random_zero session_abc 2) as [H _].
  - lia.
  - apply H. vm_compute. reflexivity.
Defined.

Lemma reload_restores_best_witness :
  bestStreak
    (boot_state random_thirds
       (storage (run random_zero session_abc [Guess "EPR"; Advance]))
       [pol_a] [])
  = bestStreak (run random_zero session_abc [Guess "EPR"; Advance]).
Proof.
  apply (reload_restores_best random_zero None
           (Json [pol_a; pol_b]) (Json [pol_c]) NetworkError NetworkError
           session_abc [Guess "EPR"; Advance]
           random_thirds (Json [pol_a]) (Json []) NetworkError NetworkError).
  - vm_compute. reflexivity.
  - vm_compute. reflexivity.
Defined.

Lemma guess_marks_buttons_witness :
  length (buttons (view (state_of (handleGuess session_abc "RN"))))
  = length (buttons (view session_abc)).
Proof.
  destruct (guess_marks_buttons session_abc "RN" pol_b) as [H _].
  - vm_compute. reflexivity.
  - vm_compute. reflexivity.
  - exact H.
Defined.

Lemma hash_below_2_53_witness :
  Z.abs (hash_of "LFI") < 2 ^ 53 ∧ Z.abs (hash_of ("LFI" +:+ "-NFP")) < 2 ^ 53.
Proof.
  apply (hash_below_2_53 "LFI" "-NFP"). simpl. lia.
Defined.

Lemma shuffle_reaches_every_order_witness :
  ∃ random : nat -> Q,
    (∀ n, (0 <= random n < 1)%Q) ∧
    (shuffle random [pol_a; pol_b; pol_c] 0).1 = [pol_c; pol_a; pol_b].
Proof.
  destruct (shuffle_reaches_every_order [pol_a; pol_b; pol_c]
              [pol_c; pol_a; pol_b]) as (random & _ & Hrange & Hshuffle).
  - simpl. lia.
  - apply (Permutation_app_comm [pol_a; pol_b] [pol_c]).
  - exists random. split; [exact Hrange | exact Hshuffle].
Defined.

Lemma answer_is_offered_witness :
  map b_sigle (buttons (view (run random_zero session_abc [Guess "RN"; Advance])))
  = parties (run random_zero session_abc [Guess "RN"; Advance]).
Proof.
  destruct (answer_is_offered random_zero random_zero_range None
              (Json [pol_a; pol_b]) (Json [pol_c]) NetworkError NetworkError
              session_abc [Guess "RN"; Advance]) as [H _].
  - vm_compute. reflexivity.
  - vm_compute. reflexivity.
  - vm_compute. discriminate.
  - exact H.
Defined.

(** The hash of a registry-style code, both ways. *)
Example hash_of_RN : hash_of "RN" = 2620 ∧ poly31 "RN" = 2620.
Proof. vm_compute. split; reflexivity. Qed.


(** A candidate whose group code is the name of an inherited member: the
    reveal shows the name of that member beside the code. *)
Example guess_on_inherited_code :
  reveal (view (state_of (handleGuess
                            (boot_state random_zero None [pol_k] []) "RN")))
  = Some (mkReveal false "Karim Leroy" "Object (constructor)").
Proof. vm_compute. reflexivity. Qed.

Lemma getPartyConfig_spec_witness :
  getPartyConfig [pol_a; pol_e] "RN"
  = Config (mkParty "Rassemblement National" "#0D378A").
Proof.
  destruct (getPartyConfig_spec [pol_a; pol_e] "RN") as [H _].
  - vm_compute. reflexivity.
  - apply H. vm_compute. reflexivity.
Defined.
